(** * SDE drift/diffusion models and trajectory simulation ([alternative/sde.py])

    A shallow embedding of the module's diffusion-coefficient formulas, the
    three SDE variants, the base engine ([f], [g], [dw], [propagate],
    [sample_traj]) and the factory [build], followed by the properties of the
    written specification that can be checked against the code.

    Modelling conventions.
    - Scalars are real numbers: [+], [*], [/], [**], [sqrt] and [log] are the
      exact operations of [R].  Rounding, infinities and NaN are outside the
      model, and the analytic kernel is meant on its domain
      [0 < s_min < s_max].
    - A tensor is a one-dimensional batch, [list R]; a time [t], the value of
      [g] and the step size [dt] are scalars.  Elementwise addition follows
      the broadcasting rule of one-dimensional tensors and raises
      [RuntimeError] otherwise.
    - Exceptions are values of [exn]; a computation that can raise returns a
      [result].
    - The random source, and a log of the calls the code makes to its
      collaborators ([print], [sample], [torch.empty], the policy,
      [torch.randn_like]), live in an explicit [world] that is threaded
      through the effectful methods.  The random source is a sequence of
      numbers with a read position; a fresh draw reads the next numbers. *)

From Stdlib Require Import Reals Lra List String ZArith Lia Bool.
From stdpp Require Import base list.
Import ListNotations.

Open Scope R_scope.

(** ** Exceptions and results *)

Inductive exn : Type :=
| AssertionError (msg : string)
| TypeError (msg : string)
| RuntimeError (msg : string)
| IndexError
| ZeroDivisionError.

Inductive result (A : Type) : Type :=
| Ok (a : A)
| Raise (e : exn).

Arguments Ok {A} a.
Arguments Raise {A} e.

Definition fails {A} (r : result A) : Prop := exists e, r = Raise e.

Definition rbind {A B} (r : result A) (k : A -> result B) : result B :=
  match r with
  | Ok a => k a
  | Raise e => Raise e
  end.

(** ** Tensors *)

Abbreviation tensor := (list R).

Module Tensor.

(** [torch.zeros_like(x)] *)
Definition zeros_like (x : tensor) : tensor := map (fun _ => 0) x.

(** [c * a] for a scalar [c] *)
Definition smul (c : R) (a : tensor) : tensor := map (fun v => c * v) a.

(** [a * c] for a scalar [c] *)
Definition muls (a : tensor) (c : R) : tensor := map (fun v => v * c) a.

(** [-a] *)
Definition neg (a : tensor) : tensor := map Ropp a.

(** [a + b]: equal sizes add elementwise, a size-one operand is expanded,
    any other pair of sizes cannot be broadcast. *)
Definition add (a b : tensor) : result tensor :=
  if (length a =? length b)%nat then Ok (zip_with Rplus a b)
  else if (length a =? 1)%nat then Ok (map (fun v => hd 0 a + v) b)
  else if (length b =? 1)%nat then Ok (map (fun v => v + hd 0 b) a)
  else Raise (RuntimeError "The size of tensor a must match the size of tensor b").

(** The value stored by [buf[:, i] = v] in a column of [bs] rows. *)
Definition expand_to (bs : nat) (v : tensor) : result tensor :=
  if (length v =? bs)%nat then Ok v
  else if (length v =? 1)%nat then Ok (replicate bs (hd 0 v))
  else Raise (RuntimeError "shape mismatch").

End Tensor.

(** ** The world: random source and collaborator calls *)

Record rng : Type := Rng { noise : nat -> R; cursor : nat }.

Inductive dist_id : Type := DataP | PriorQ.

Inductive event : Type :=
| EvPrint (msg : string)
| EvSample (d : dist_id)
| EvEmpty (rows cols : nat)
| EvPolicy (t : R)
| EvRandn (n : nat).

Record world : Type := World { gen : rng; trace : list event }.

Definition M (A : Type) : Type := world -> result A * world.

Definition ret {A} (a : A) : M A := fun w => (Ok a, w).

Definition raise {A} (e : exn) : M A := fun w => (Raise e, w).

Definition bind {A B} (m : M A) (k : A -> M B) : M B :=
  fun w => match m w with
           | (Ok a, w') => k a w'
           | (Raise e, w') => (Raise e, w')
           end.

Definition lift {A} (r : result A) : M A := fun w => (r, w).

Definition emit (e : event) : M unit :=
  fun w => (Ok tt, World (gen w) (e :: trace w)).

Notation "x <- m ;; k" := (bind m (fun x => k))
  (at level 100, m at next level, right associativity).
Notation "m ;;; k" := (bind m (fun _ => k))
  (at level 100, right associativity).

(** [assert c, msg] *)
Definition assert (c : bool) (msg : string) : M unit :=
  if c then ret tt else raise (AssertionError msg).

(** The next [n] numbers of the random source. *)
Definition noise_slice (nz : nat -> R) (off n : nat) : tensor :=
  map (fun j => nz (off + j)%nat) (seq 0 n).

(** The world after [torch.randn_like] has drawn [n] numbers. *)
Definition after_randn (n : nat) (w : world) : world :=
  World (Rng (noise (gen w)) (cursor (gen w) + n)) (EvRandn n :: trace w).

(** [torch.randn_like(x)] *)
Definition randn_like (x : tensor) : M tensor :=
  fun w =>
    (Ok (noise_slice (noise (gen w)) (cursor (gen w)) (length x)),
     after_randn (length x) w).

(** ** External collaborators *)

(** A distribution exposes [sample()], which may use the random source. *)
Record distribution : Type := Dist { draw : rng -> tensor * rng }.

Definition sample (id : dist_id) (d : distribution) : M tensor :=
  fun w =>
    let '(x, r) := draw d (gen w) in
    (Ok x, World r (EvSample id :: trace w)).

(** A policy is a callable [(x, t) -> z] with a [direction] attribute. *)
Record policy : Type := Policy { direction : string; run : tensor -> R -> tensor }.

(** The world after the policy has been called at time [t]. *)
Definition after_policy (t : R) (w : world) : world :=
  World (gen w) (EvPolicy t :: trace w).

Definition call_policy (pol : policy) (x : tensor) (t : R) : M tensor :=
  fun w => (Ok (run pol x t), after_policy t w).

(** ** Configuration *)

Record config : Type := Config {
  T : R;
  interval : Z;
  sde_type : string;
  sigma_min : R;
  sigma_max : R;
  train_method : string
}.

(** ** SDE analytic kernel *)

(** [b ** t].  For a positive base this is the real power; the schedules
    below are only used with [0 < s_min < s_max], where the base is
    positive. *)
Definition pow (b t : R) : R := Rpower b t.

Definition compute_sigmas (t s_min s_max : R) : R :=
  s_min * pow (s_max / s_min) t.

Definition compute_sigmas_two_ways (t s_min s_max : R) : R :=
  s_min * pow (s_max / s_min) (1 - 2 * Rabs (t - 1 / 2)).

Definition compute_ve_g_scale (s_min s_max : R) : R :=
  sqrt (2 * ln (s_max / s_min)).

Definition compute_ve_diffusion (t s_min s_max : R) : R :=
  compute_sigmas t s_min s_max * compute_ve_g_scale s_min s_max.

Definition compute_ve2_diffusion (t s_min s_max : R) : R :=
  compute_sigmas_two_ways t s_min s_max * compute_ve_g_scale s_min s_max.

(** ** SDE instances *)

(** The fields set by [BaseSDE.__init__]. *)
Record BaseSDE : Type := Base {
  opt : config;
  dt : R;
  p : distribution;
  q : distribution
}.

Inductive sde : Type :=
| SimpleSDE (b : BaseSDE) (var : R)
| VESDE (b : BaseSDE) (s_min s_max : R)
| VESDE2 (b : BaseSDE) (s_min s_max : R).

Definition base (s : sde) : BaseSDE :=
  match s with
  | SimpleSDE b _ | VESDE b _ _ | VESDE2 b _ _ => b
  end.

(** [BaseSDE.__init__]: [self.dt = opt.T / opt.interval] *)
Definition BaseSDE_init (o : config) (p q : distribution) : result BaseSDE :=
  if (interval o =? 0)%Z then Raise ZeroDivisionError
  else Ok (Base o (T o / IZR (interval o)) p q).

Definition SimpleSDE_init (o : config) (p q : distribution) (var : option R)
  : result sde :=
  let var := default 1 var in
  rbind (BaseSDE_init o p q) (fun b => Ok (SimpleSDE b var)).

Definition VESDE_init (o : config) (p q : distribution) : result sde :=
  rbind (BaseSDE_init o p q) (fun b => Ok (VESDE b (sigma_min o) (sigma_max o))).

Definition VESDE2_init (o : config) (p q : distribution) : result sde :=
  rbind (BaseSDE_init o p q) (fun b => Ok (VESDE2 b (sigma_min o) (sigma_max o))).

(** ** The factory *)

Definition constructor : Type := config -> distribution -> distribution -> result sde.

(** The dictionary literal of [build], as the association list it is
    written as, and [dict.get]. *)
Definition registry : list (string * constructor) :=
  [ ("ve"%string, VESDE_init);
    ("ve2"%string, VESDE2_init);
    ("simple"%string, fun o p q => SimpleSDE_init o p q None) ].

Fixpoint get (d : list (string * constructor)) (k : string) : option constructor :=
  match d with
  | [] => None
  | (k', v) :: d' => if String.eqb k k' then Some v else get d' k
  end.

Definition build (o : config) (p q : distribution) : M sde :=
  emit (EvPrint "build base sde...") ;;;
  match get registry (sde_type o) with
  | Some ctor => lift (ctor o p q)
  | None => raise (TypeError "'NoneType' object is not callable")
  end.

(** ** The base engine *)

Definition _f (s : sde) (x : tensor) (t : R) : tensor :=
  match s with
  | SimpleSDE _ _ => Tensor.zeros_like x
  | VESDE _ _ _ => Tensor.zeros_like x
  | VESDE2 _ _ _ => Tensor.zeros_like x
  end.

Definition _g (s : sde) (t : R) : R :=
  match s with
  | SimpleSDE _ var => var
  | VESDE _ s_min s_max => compute_ve_diffusion t s_min s_max
  | VESDE2 _ s_min s_max => compute_ve2_diffusion t s_min s_max
  end.

Definition f (s : sde) (x : tensor) (t : R) (direction : string) : result tensor :=
  let sign := if String.eqb direction "forward" then 1 else -1 in
  Ok (Tensor.smul sign (_f s x t)).

Definition g (s : sde) (t : R) : R := _g s t.

Definition dw (s : sde) (x : tensor) (dt_arg : option R) : M tensor :=
  let dt := match dt_arg with None => dt (base s) | Some dt => dt end in
  n <- randn_like x ;;
  ret (Tensor.muls n (sqrt dt)).

Definition propagate (s : sde) (t : R) (x z : tensor) (direction : string)
    (f_arg dw_arg : option tensor) (dt_arg : option R) : M tensor :=
  let g := g s t in
  f <- match f_arg with None => lift (f s x t direction) | Some f => ret f end ;;
  let dt := match dt_arg with None => dt (base s) | Some dt => dt end in
  dw <- match dw_arg with None => dw s x (Some dt) | Some dw => ret dw end ;;
  lift (rbind (Tensor.add f (Tensor.smul g z)) (fun drift =>
        rbind (Tensor.add x (Tensor.muls drift dt)) (fun moved =>
        Tensor.add moved (Tensor.smul g dw)))).

(** ** Trajectory buffers *)

(** A buffer of shape [[rows, len(cols)]].  [cols !! i] is the column
    [buf[:, i]]; a column that [torch.empty] left uninitialised is [None]. *)
Record buffer : Type := Buffer { rows : nat; cols : list (option tensor) }.

(** [torch.empty((rows, n))] and [torch.empty_like] *)
Definition empty (rows n : nat) : M buffer :=
  emit (EvEmpty rows n) ;;;
  ret (Buffer rows (replicate n None)).

Definition empty_like (b : option buffer) : M buffer :=
  match b with
  | Some b => empty (rows b) (length (cols b))
  | None => raise (TypeError "empty_like(): argument 'input' must be Tensor, not NoneType")
  end.

(** [buf[:, i, ...] = v] *)
Definition setitem (b : option buffer) (i : nat) (v : tensor) : result (option buffer) :=
  match b with
  | None => Raise (TypeError "'NoneType' object does not support item assignment")
  | Some b =>
      if (i <? length (cols b))%nat then
        rbind (Tensor.expand_to (rows b) v) (fun v' =>
          Ok (Some (Buffer (rows b) (<[i := Some v']> (cols b)))))
      else Raise IndexError
  end.

(** ** Trajectory simulation *)

Definition Rgtb (a b : R) : bool := if Rgt_dec a b then true else false.

(** [(ts[1:] > ts[:-1]).all()] *)
Definition all_increasing (ts : list R) : bool :=
  forallb (fun b => b) (zip_with Rgtb (drop 1 ts) (take (length ts - 1) ts)).

Definition _assert_increasing (name : string) (ts : list R) : M unit :=
  assert (all_increasing ts) (name ++ " must be strictly increasing").

(** [torch.flip(ts, dims=[0])] *)
Definition flip (ts : list R) : list R := reverse ts.

Definition enumerate {A} (l : list A) : list (nat * A) :=
  combine (seq 0 (length l)) l.

(** The progress bar iterates over the same elements. *)
Definition tqdm {A} (l : list A) : list A := l.

Fixpoint for_each {A S} (body : A -> S -> M S) (l : list A) (st : S) : M S :=
  match l with
  | [] => ret st
  | a :: l' => st' <- body a st ;; for_each body l' st'
  end.

Definition traj_state : Type := option buffer * option buffer * tensor.

(** One iteration of the loop of [sample_traj]; [ts] is the grid as it is
    traversed. *)
Definition loop_body (s : sde) (ts : list R) (pol : policy) (direction : string)
    (save_traj : bool) (it : nat * R) (st : traj_state) : M traj_state :=
  let '(idx, t) := it in
  let '(xs, zs, x) := st in
  let _t := if (idx =? length ts - 1)%nat then t else nth (idx + 1) ts 0 in
  f <- lift (f s x t direction) ;;
  z <- call_policy pol x t ;;
  dw <- dw s x None ;;
  let t_idx := if String.eqb direction "forward" then idx
               else (length ts - idx - 1)%nat in
  bufs <- (if save_traj then
             xs' <- lift (setitem xs t_idx x) ;;
             zs' <- lift (setitem zs t_idx z) ;;
             ret (xs', zs')
           else ret (xs, zs)) ;;
  x <- propagate s t x z direction (Some f) (Some dw) None ;;
  ret (fst bufs, snd bufs, x).

(** [corrector] and [apply_trick] are accepted and never read. *)
Definition sample_traj {C : Type} (s : sde) (ts : list R) (pol : policy)
    (corrector : option C) (apply_trick save_traj : bool) : M traj_state :=
  let opt := opt (base s) in
  let direction := direction pol in
  assert (existsb (String.eqb direction) ["forward"; "backward"]%string) "" ;;;
  _assert_increasing "ts" ts ;;;
  let init_dist := if String.eqb direction "forward"
                   then (DataP, p (base s)) else (PriorQ, q (base s)) in
  let ts := if String.eqb direction "forward" then ts else flip ts in
  x <- sample (fst init_dist) (snd init_dist) ;;
  xs <- (if save_traj
         then b <- empty (length x) (length ts) ;; ret (Some b)
         else ret None) ;;
  zs <- (if save_traj
         then b <- empty_like xs ;; ret (Some b)
         else ret None) ;;
  let _ts := if String.eqb (train_method opt) "joint" then ts else tqdm ts in
  st <- for_each (loop_body s ts pol direction save_traj) (enumerate _ts) (xs, zs, x) ;;
  let '(xs, zs, x) := st in
  let x_term := x in
  ret (xs, zs, x_term).

(** * Vocabulary of the properties *)

(** ** One step *)

(** The tensor expression [x + (f + g*z)*dt + g*dw]. *)
Definition euler (g dt : R) (x f z dw : tensor) : result tensor :=
  rbind (Tensor.add f (Tensor.smul g z)) (fun drift =>
  rbind (Tensor.add x (Tensor.muls drift dt)) (fun moved =>
  Tensor.add moved (Tensor.smul g dw))).

(** The value of that expression when all operands have the shape of [x]. *)
Definition euler_value (g dt : R) (x f z dw : tensor) : tensor :=
  zip_with Rplus
    (zip_with Rplus x (Tensor.muls (zip_with Rplus f (Tensor.smul g z)) dt))
    (Tensor.smul g dw).

Definition sign_of (d : string) : R := if String.eqb d "forward" then 1 else -1.

(** The noise increment [randn * sqrt(self.dt)] read at offset [off]. *)
Definition noise_increment (s : sde) (nz : nat -> R) (off n : nat) : tensor :=
  Tensor.muls (noise_slice nz off n) (sqrt (dt (base s))).

(** The state after one step in which drift and diffusion are evaluated at
    the reference time [tref]. *)
Definition step_at (s : sde) (d : string) (tref : R) (x z dw : tensor) : tensor :=
  euler_value (g s tref) (dt (base s)) x
    (Tensor.smul (sign_of d) (_f s x tref)) z dw.

(** ** Inputs of [sample_traj] *)

(** The world after [build] has printed its banner. *)
Definition after_banner (w : world) : world :=
  World (gen w) (EvPrint "build base sde..." :: trace w).

(** Each time of the grid is smaller than the one after it. *)
Definition strictly_increasing (ts : list R) : Prop :=
  forall i a b, ts !! i = Some a -> ts !! S i = Some b -> a < b.

(** The policy returns a control of the shape of the state. *)
Definition shape_preserving (pol : policy) : Prop :=
  forall x t, length (run pol x t) = length x.

(** The distribution the initial batch is drawn from, the batch, the random
    source after the draw, and the grid as it is traversed. *)
Definition init_dist (s : sde) (d : string) : distribution :=
  if String.eqb d "forward" then p (base s) else q (base s).

Definition initial (s : sde) (d : string) (w : world) : tensor :=
  fst (draw (init_dist s d) (gen w)).

Definition seeded (s : sde) (d : string) (w : world) : rng :=
  snd (draw (init_dist s d) (gen w)).

Definition traversal (d : string) (ts : list R) : list R :=
  if String.eqb d "forward" then ts else flip ts.

(** The buffer index written at loop index [idx] on a grid of [n] times. *)
Definition t_idx (n : nat) (d : string) (idx : nat) : nat :=
  if String.eqb d "forward" then idx else (n - idx - 1)%nat.

(** ** The run of the loop on well-shaped inputs

    [visited] and [final] list what the loop of [sample_traj] computes when
    every control has the shape of the state, and [record] what it stores;
    [for_each_run] below shows that the loop does compute them. *)

(** The states and controls the loop visits on [grid], started at [x] with
    the random source at offset [off], and the state it ends in.  Each step
    is taken at the time [t] of the grid that the loop is at. *)
Fixpoint visited (s : sde) (pol : policy) (d : string) (nz : nat -> R) (off : nat)
    (grid : list R) (x : tensor) : list (tensor * tensor) :=
  match grid with
  | [] => []
  | t :: rest =>
      let z := run pol x t in
      (x, z) :: visited s pol d nz (off + length x) rest
                  (step_at s d t x z (noise_increment s nz off (length x)))
  end.

Fixpoint final (s : sde) (pol : policy) (d : string) (nz : nat -> R) (off : nat)
    (grid : list R) (x : tensor) : tensor :=
  match grid with
  | [] => x
  | t :: rest =>
      final s pol d nz (off + length x) rest
        (step_at s d t x (run pol x t) (noise_increment s nz off (length x)))
  end.

(** The effect of [buf[:, i] = v] on a well-shaped buffer, when recording. *)
Definition write (save : bool) (b : option buffer) (i : nat) (v : tensor)
  : option buffer :=
  if save then
    match b with
    | Some b => Some (Buffer (rows b) (<[i := Some v]> (cols b)))
    | None => None
    end
  else b.

(** The buffers after the pairs [l] have been stored, the first of them at
    loop index [k]. *)
Fixpoint record (save : bool) (n : nat) (d : string) (k : nat)
    (l : list (tensor * tensor)) (bufs : option buffer * option buffer)
  : option buffer * option buffer :=
  match l with
  | [] => bufs
  | (x, z) :: l' =>
      record save n d (S k) l'
        (write save (fst bufs) (t_idx n d k) x, write save (snd bufs) (t_idx n d k) z)
  end.

(** When recording, [b] is a buffer of [bs] rows and [n] columns. *)
Definition ready (save : bool) (bs n : nat) (b : option buffer) : Prop :=
  if save then exists c, b = Some (Buffer bs c) /\ length c = n else True.

(** The state that follows the [k]-th visited one. *)
Definition successor (l : list (tensor * tensor)) (xT : tensor) (k : nat) : tensor :=
  match l !! S k with
  | Some (x', _) => x'
  | None => xT
  end.

(** ** Reading the results *)

(** The column stored at index [i], if it has been written. *)
Definition stored (b : option buffer) (i : nat) : option tensor :=
  match b with
  | Some b => match cols b !! i with Some (Some v) => Some v | _ => None end
  | None => None
  end.

(** The buffers before the loop. *)
Definition fresh (save : bool) (bs n : nat) : option buffer * option buffer :=
  if save
  then (Some (Buffer bs (replicate n None)), Some (Buffer bs (replicate n None)))
  else (None, None).

(** ** The reference time of a step *)

(** The state that follows traversal step [k], read from the results. *)
Definition next_state (bx : option buffer) (xT : tensor) (n : nat) (d : string)
    (k : nat) : option tensor :=
  if (S k <? n)%nat then stored bx (t_idx n d (S k)) else Some xT.

(** The time of step [idx], and the value of the loop's [_t] at step [idx]:
    the next time of the grid, or the same time at the last index. *)
Definition current_time (grid : list R) (idx : nat) : R := nth idx grid 0.

Definition next_time (grid : list R) (idx : nat) : R :=
  if (idx =? length grid - 1)%nat then nth idx grid 0 else nth (idx + 1) grid 0.

(** Every step of [sample_traj] takes the recorded state and control of its
    index to the following state by one Euler-Maruyama step whose drift and
    diffusion are evaluated at the time [ref grid idx]. *)
Definition steps_use (ref : list R -> nat -> R) {C : Type} (s : sde) (ts : list R)
    (pol : policy) (corrector : option C) (apply_trick : bool) (w : world) : Prop :=
  let d := direction pol in
  let n := length ts in
  let r := seeded s d w in
  let bs := length (initial s d w) in
  exists bx bz xT w',
    sample_traj s ts pol corrector apply_trick true w =
      (Ok (Some bx, Some bz, xT), w') /\
    forall k, (k < n)%nat ->
      exists x z,
        stored (Some bx) (t_idx n d k) = Some x /\
        stored (Some bz) (t_idx n d k) = Some z /\
        next_state (Some bx) xT n d k =
          Some (step_at s d (ref (traversal d ts) k) x z
                  (noise_increment s (noise r) (cursor r + k * bs) bs)).

(** ** Concrete inputs *)

Definition unit_config (kind : string) : config := Config 1 1 kind 1 2 "joint".

(** A distribution whose samples are all [x]. *)
Definition point_mass (x : tensor) : distribution := Dist (fun r => (x, r)).

Definition unit_base (kind : string) : BaseSDE :=
  Base (unit_config kind) (1 / 1) (point_mass [0]) (point_mass [0]).

Definition simple_example : sde := SimpleSDE (unit_base "simple") 1.

Definition still_example : sde := SimpleSDE (unit_base "simple") 0.

Definition ve_example : sde := VESDE (unit_base "ve") 1 2.

(** A policy whose control is [1] in every entry. *)
Definition ones_policy (d : string) : policy :=
  Policy d (fun x _ => map (fun _ => 1) x).

(** A policy whose control is the time in every entry. *)
Definition clock_policy (d : string) : policy :=
  Policy d (fun x t => map (fun _ => t) x).

(** A world whose random source yields only zeros. *)
Definition quiet_world : world := World (Rng (fun _ => 0) 0) [].

(** ** Vocabulary of the further properties *)

(** The keys of the dictionary of [build]. *)
Definition registered (name : string) : Prop :=
  name = "ve"%string \/ name = "ve2"%string \/ name = "simple"%string.

(** Every time of the grid is smaller than every later one. *)
Definition increasing_throughout (ts : list R) : Prop :=
  forall i j a b, (i < j)%nat -> ts !! i = Some a -> ts !! j = Some b -> a < b.

(** The bounds the VE schedules are meant for. *)
Definition valid_bounds (s_min s_max : R) : Prop := 0 < s_min /\ s_min < s_max.

(** The calls one traversal of [grid] makes, in the order it makes them: at
    each time the policy, then a noise draw of the batch size. *)
Definition step_events (bs : nat) (grid : list R) : list event :=
  flat_map (fun t => [EvPolicy t; EvRandn bs]) grid.

(** The calls of a whole [sample_traj], in the order it makes them. *)
Definition traj_events (save : bool) (d : string) (bs n : nat) (grid : list R)
  : list event :=
  EvSample (if String.eqb d "forward" then DataP else PriorQ)
  :: (if save then [EvEmpty bs n; EvEmpty bs n] else []) ++ step_events bs grid.

(** The sum, over [n] successive draws of [bs] numbers starting at offset
    [off], of the [j]-th number of each draw. *)
Fixpoint noise_sum (nz : nat -> R) (off bs j n : nat) : R :=
  match n with
  | O => 0
  | S n' => nz (off + j)%nat + noise_sum nz (off + bs) bs j n'
  end.

(** The final state of a result of [sample_traj]. *)
Definition x_term_of (r : result traj_state) : option tensor :=
  match r with
  | Ok (_, _, x) => Some x
  | Raise _ => None
  end.

(** The policy gives the zero control. *)
Definition zero_control (pol : policy) : Prop :=
  forall x t, run pol x t = Tensor.zeros_like x.

(** A policy whose control is [0] in every entry. *)
Definition zero_policy (d : string) : policy :=
  Policy d (fun x _ => Tensor.zeros_like x).

(** The control of the policy does not depend on the time. *)
Definition time_blind (pol : policy) : Prop :=
  forall x t t', run pol x t = run pol x t'.

(** * Properties *)

(** ** Tensor arithmetic *)

Section TensorFacts.

Implicit Types (a b x : tensor) (c : R) (j : nat).

Lemma length_zeros_like x : length (Tensor.zeros_like x) = length x.
Proof. apply length_map. Qed.

Lemma length_smul c a : length (Tensor.smul c a) = length a.
Proof. apply length_map. Qed.

Lemma length_muls a c : length (Tensor.muls a c) = length a.
Proof. apply length_map. Qed.

Lemma length_noise_slice (nz : nat -> R) off n : length (noise_slice nz off n) = n.
Proof. unfold noise_slice. now rewrite length_map, length_seq. Qed.

Lemma nth_zeros_like x j : nth j (Tensor.zeros_like x) 0 = 0.
Proof.
  revert j. induction x as [|v x IH]; intros [|j]; simpl; auto.
Qed.

Lemma nth_smul c a j : nth j (Tensor.smul c a) 0 = c * nth j a 0.
Proof.
  revert j. induction a as [|v a IH]; intros [|j]; simpl; auto; ring.
Qed.

Lemma nth_muls a c j : nth j (Tensor.muls a c) 0 = nth j a 0 * c.
Proof.
  revert j. induction a as [|v a IH]; intros [|j]; simpl; auto; ring.
Qed.

Lemma nth_noise_slice (nz : nat -> R) off n j :
  (j < n)%nat -> nth j (noise_slice nz off n) 0 = nz (off + j)%nat.
Proof.
  intros Hj. unfold noise_slice.
  pose (h := fun k => nz (off + k)%nat).
  change (nth j (map h (seq 0 n)) 0 = h j).
  rewrite (nth_indep _ 0 (h 0%nat)) by now rewrite length_map, length_seq.
  rewrite (map_nth h), seq_nth by assumption. reflexivity.
Qed.

Lemma length_zip_plus a b :
  length a = length b -> length (zip_with Rplus a b) = length a.
Proof.
  revert b. induction a as [|u a IH]; intros [|v b] H; simpl in *; try lia.
  f_equal. apply IH. lia.
Qed.

Lemma nth_zip_plus a b j :
  length a = length b ->
  nth j (zip_with Rplus a b) 0 = nth j a 0 + nth j b 0.
Proof.
  revert b j. induction a as [|u a IH]; intros [|v b] j H; simpl in *; try lia.
  - destruct j; ring.
  - destruct j; [reflexivity | apply IH; lia].
Qed.

Lemma add_same_length a b :
  length a = length b -> Tensor.add a b = Ok (zip_with Rplus a b).
Proof.
  intros H. unfold Tensor.add. now rewrite H, Nat.eqb_refl.
Qed.

Lemma smul_one a : Tensor.smul 1 a = a.
Proof.
  induction a as [|v a IH]; [reflexivity|].
  change (1 * v :: Tensor.smul 1 a = v :: a). rewrite IH. f_equal. ring.
Qed.

Lemma tensor_ext a b :
  length a = length b ->
  (forall j, (j < length a)%nat -> nth j a 0 = nth j b 0) -> a = b.
Proof.
  revert b. induction a as [|u a IH]; intros [|v b] Hl Hn; simpl in *;
    try lia; [reflexivity|].
  f_equal.
  - apply (Hn 0%nat). lia.
  - apply IH; [lia|]. intros j Hj. apply (Hn (S j)). lia.
Qed.

End TensorFacts.

(** ** Diffusion schedules *)

Lemma compute_sigmas_at_0 s_min s_max :
  0 < s_min -> s_min < s_max -> compute_sigmas 0 s_min s_max = s_min.
Proof.
  intros Hmin Hlt. unfold compute_sigmas, pow.
  rewrite Rpower_O by (apply Rdiv_lt_0_compat; lra). ring.
Qed.

Lemma compute_sigmas_at_1 s_min s_max :
  0 < s_min -> s_min < s_max -> compute_sigmas 1 s_min s_max = s_max.
Proof.
  intros Hmin Hlt. unfold compute_sigmas, pow.
  rewrite Rpower_1 by (apply Rdiv_lt_0_compat; lra). field. lra.
Qed.

(** C6.  For bounds [0 < s_min < s_max], over the reals:
    [compute_sigmas] is [s_min] at [t = 0] and [s_max] at [t = 1], and
    [compute_sigmas_two_ways] is [s_max] at [t = 1/2] and [s_min] at both
    [t = 0] and [t = 1]. *)
Theorem compute_sigmas_endpoints (s_min s_max : R) :
  0 < s_min -> s_min < s_max ->
  compute_sigmas 0 s_min s_max = s_min /\
  compute_sigmas 1 s_min s_max = s_max /\
  compute_sigmas_two_ways (1 / 2) s_min s_max = s_max /\
  compute_sigmas_two_ways 0 s_min s_max = s_min /\
  compute_sigmas_two_ways 1 s_min s_max = s_min.
Proof.
  intros Hmin Hlt.
  assert (Hbase : 0 < s_max / s_min) by (apply Rdiv_lt_0_compat; lra).
  assert (Hmid : 1 - 2 * Rabs (1 / 2 - 1 / 2) = 1).
  { replace (1 / 2 - 1 / 2) with 0 by lra. rewrite Rabs_R0. lra. }
  assert (Hlo : 1 - 2 * Rabs (0 - 1 / 2) = 0).
  { replace (0 - 1 / 2) with (- (1 / 2)) by lra.
    rewrite Rabs_Ropp, Rabs_pos_eq by lra. lra. }
  assert (Hhi : 1 - 2 * Rabs (1 - 1 / 2) = 0).
  { rewrite Rabs_pos_eq by lra. lra. }
  unfold compute_sigmas, compute_sigmas_two_ways, pow.
  rewrite Hmid, Hlo, Hhi, Rpower_O, Rpower_1 by assumption.
  repeat split; try lra; field; lra.
Qed.

(** ** Monad steps *)

Lemma bind_ok {A B} (m : M A) (k : A -> M B) w a w' :
  m w = (Ok a, w') -> bind m k w = k a w'.
Proof. intros H. unfold bind. now rewrite H. Qed.

(** ** Directional drift *)

Lemma smul_minus_one (a : tensor) : Tensor.smul (-1) a = Tensor.neg a.
Proof.
  induction a as [|v a IH]; [reflexivity|].
  change (-1 * v :: Tensor.smul (-1) a = - v :: Tensor.neg a).
  rewrite IH. f_equal. ring.
Qed.

Lemma f_forward s x t : f s x t "forward" = Ok (_f s x t).
Proof. unfold f. simpl. now rewrite smul_one. Qed.

Lemma f_not_forward s x t d :
  d <> "forward"%string -> f s x t d = Ok (Tensor.neg (_f s x t)).
Proof.
  intros Hd. unfold f.
  destruct (String.eqb_spec d "forward") as [E|_]; [contradiction|].
  now rewrite smul_minus_one.
Qed.

(** C5 (as amended).  [f] returns [_f(x,t)] for the direction ['forward'] and
    [-_f(x,t)] for ['backward'] and for every other direction value; it fails
    for none. *)
Theorem f_direction (s : sde) (x : tensor) (t : R) (d : string) :
  d <> "forward"%string ->
  f s x t "forward" = Ok (_f s x t) /\
  f s x t "backward" = Ok (Tensor.neg (_f s x t)) /\
  f s x t d = Ok (Tensor.neg (_f s x t)) /\
  ~ fails (f s x t d).
Proof.
  intros Hd. repeat split.
  - apply f_forward.
  - now apply f_not_forward.
  - now apply f_not_forward.
  - intros [e He]. now rewrite f_not_forward in He.
Qed.

(** ** One Euler-Maruyama step *)

Section EulerSameShape.

Variables (g dt : R) (x f z dw : tensor).
Hypothesis Hf : length f = length x.
Hypothesis Hz : length z = length x.
Hypothesis Hdw : length dw = length x.

Let drift := zip_with Rplus f (Tensor.smul g z).
Let moved := zip_with Rplus x (Tensor.muls drift dt).

Local Lemma length_drift : length drift = length x.
Proof.
  unfold drift. rewrite length_zip_plus; [assumption|].
  now rewrite length_smul, Hf, Hz.
Qed.

Local Lemma length_moved : length moved = length x.
Proof.
  unfold moved. rewrite length_zip_plus; [reflexivity|].
  now rewrite length_muls, length_drift.
Qed.

Lemma euler_same_shape : euler g dt x f z dw = Ok (euler_value g dt x f z dw).
Proof.
  unfold euler, euler_value.
  rewrite add_same_length by now rewrite length_smul, Hf, Hz.
  simpl. fold drift.
  rewrite add_same_length by now rewrite length_muls, length_drift.
  simpl. fold moved.
  now rewrite add_same_length by now rewrite length_smul, length_moved, Hdw.
Qed.

Lemma length_euler_value : length (euler_value g dt x f z dw) = length x.
Proof.
  unfold euler_value. fold drift. fold moved.
  rewrite length_zip_plus; [apply length_moved|].
  now rewrite length_smul, length_moved, Hdw.
Qed.

Lemma nth_euler_value j :
  nth j (euler_value g dt x f z dw) 0 =
  nth j x 0 + (nth j f 0 + g * nth j z 0) * dt + g * nth j dw 0.
Proof.
  unfold euler_value. fold drift. fold moved.
  rewrite nth_zip_plus by now rewrite length_smul, length_moved, Hdw.
  unfold moved.
  rewrite nth_zip_plus by now rewrite length_muls, length_drift.
  rewrite nth_muls, nth_smul. unfold drift.
  rewrite nth_zip_plus by now rewrite length_smul, Hf, Hz.
  now rewrite nth_smul.
Qed.

End EulerSameShape.

Lemma propagate_unfold s t x z d fo dwo dto w f' :
  match fo with Some v => Ok v | None => f s x t d end = Ok f' ->
  let dt' := match dto with None => dt (base s) | Some v => v end in
  propagate s t x z d fo dwo dto w =
    match dwo with
    | Some dw' => (euler (g s t) dt' x f' z dw', w)
    | None =>
        (euler (g s t) dt' x f' z
           (Tensor.muls (noise_slice (noise (gen w)) (cursor (gen w)) (length x)) (sqrt dt')),
         after_randn (length x) w)
    end.
Proof.
  intros Hf dt'. unfold propagate.
  assert (E : (match fo with
               | None => lift (f s x t d)
               | Some v => ret v
               end) w = (Ok f', w)).
  { destruct fo; unfold ret, lift; [now inversion Hf | now rewrite Hf]. }
  rewrite (bind_ok _ _ _ _ _ E).
  destruct dwo as [dw'|]; reflexivity.
Qed.

(** C1.  [propagate] returns the tensor expression [x + (f + g(t)*z)*dt +
    g(t)*dw], where a missing [f] is [f(x,t,direction)], a missing [dt] is the
    instance's step size and a missing [dw] is fresh noise scaled by
    [sqrt(dt)]; when the operands have the shape of [x], every entry of the
    result is exactly [x_j + (f_j + g(t)*z_j)*dt + g(t)*dw_j]. *)
Theorem propagate_formula (s : sde) (t : R) (x z : tensor) (d : string)
    (fo dwo : option tensor) (dto : option R) (w : world) (f' : tensor) :
  match fo with Some v => Ok v | None => f s x t d end = Ok f' ->
  let dt' := match dto with None => dt (base s) | Some v => v end in
  let dw' := match dwo with
             | Some v => v
             | None => Tensor.muls
                         (noise_slice (noise (gen w)) (cursor (gen w)) (length x))
                         (sqrt dt')
             end in
  propagate s t x z d fo dwo dto w =
    (euler (g s t) dt' x f' z dw',
     match dwo with Some _ => w | None => after_randn (length x) w end) /\
  (length f' = length x -> length z = length x -> length dw' = length x ->
   exists r, fst (propagate s t x z d fo dwo dto w) = Ok r /\
     length r = length x /\
     forall j, nth j r 0 =
       nth j x 0 + (nth j f' 0 + g s t * nth j z 0) * dt' + g s t * nth j dw' 0).
Proof.
  intros Hf dt' dw'.
  assert (E := propagate_unfold s t x z d fo dwo dto w f' Hf).
  cbv zeta in E. fold dt' in E.
  assert (E' : propagate s t x z d fo dwo dto w =
    (euler (g s t) dt' x f' z dw',
     match dwo with Some _ => w | None => after_randn (length x) w end)).
  { rewrite E. subst dw'. now destruct dwo. }
  split; [exact E'|].
  intros Lf Lz Ldw. rewrite E'. simpl.
  exists (euler_value (g s t) dt' x f' z dw'). split; [|split].
  - now apply euler_same_shape.
  - now apply length_euler_value.
  - intros j. now apply nth_euler_value.
Qed.

(** C10.  With [f], [dw] and [dt] supplied, [propagate] draws nothing: its
    result is the same in every world and the world is left as it was. *)
Theorem propagate_deterministic (s : sde) (t : R) (x z : tensor) (d : string)
    (fa dwa : tensor) (dta : R) (w1 w2 : world) :
  fst (propagate s t x z d (Some fa) (Some dwa) (Some dta) w1) =
  fst (propagate s t x z d (Some fa) (Some dwa) (Some dta) w2) /\
  snd (propagate s t x z d (Some fa) (Some dwa) (Some dta) w1) = w1.
Proof.
  rewrite !(propagate_unfold s t x z d (Some fa) (Some dwa) (Some dta) _ fa eq_refl).
  now split.
Qed.

(** ** The factory *)

Lemma get_registry_other k :
  k <> "ve"%string -> k <> "ve2"%string -> k <> "simple"%string ->
  get registry k = None.
Proof.
  intros H1 H2 H3. simpl.
  destruct (String.eqb_spec k "ve"); [contradiction|].
  destruct (String.eqb_spec k "ve2"); [contradiction|].
  destruct (String.eqb_spec k "simple"); [contradiction|].
  reflexivity.
Qed.

Lemma BaseSDE_init_ok o p q :
  interval o <> 0%Z ->
  BaseSDE_init o p q = Ok (Base o (T o / IZR (interval o)) p q).
Proof.
  intros H. unfold BaseSDE_init.
  destruct (Z.eqb_spec (interval o) 0); [contradiction | reflexivity].
Qed.

(** C7.  For a configuration whose step count is not zero, [build] returns a
    [VESDE] for ['ve'], a [VESDE2] for ['ve2'] and a [SimpleSDE] for
    ['simple'], each constructed from the configuration and the two
    distributions; for every other name the lookup yields nothing, the call
    raises and no instance is returned. *)
Theorem build_dispatch (o : config) (p q : distribution) (w : world) :
  interval o <> 0%Z ->
  let b := Base o (T o / IZR (interval o)) p q in
  (sde_type o = "ve"%string ->
     build o p q w = (Ok (VESDE b (sigma_min o) (sigma_max o)), after_banner w)) /\
  (sde_type o = "ve2"%string ->
     build o p q w = (Ok (VESDE2 b (sigma_min o) (sigma_max o)), after_banner w)) /\
  (sde_type o = "simple"%string ->
     build o p q w = (Ok (SimpleSDE b 1), after_banner w)) /\
  (sde_type o <> "ve"%string -> sde_type o <> "ve2"%string ->
   sde_type o <> "simple"%string ->
     build o p q w =
       (Raise (TypeError "'NoneType' object is not callable"), after_banner w)).
Proof.
  intros Hi b. unfold build, bind, emit, lift.
  repeat split.
  - intros ->. simpl. unfold VESDE_init. now rewrite BaseSDE_init_ok.
  - intros ->. simpl. unfold VESDE2_init. now rewrite BaseSDE_init_ok.
  - intros ->. simpl. unfold SimpleSDE_init. now rewrite BaseSDE_init_ok.
  - intros H1 H2 H3. now rewrite get_registry_other.
Qed.

(** C9.  Every [SimpleSDE] that [build] returns has [var = 1]: the factory
    calls the constructor without [var], which then takes its default. *)
Theorem build_simple_var (o : config) (p q : distribution) (w w' : world)
    (b : BaseSDE) (v : R) :
  build o p q w = (Ok (SimpleSDE b v), w') -> v = 1.
Proof.
  unfold build, bind, emit, lift, raise.
  destruct (get registry (sde_type o)) as [ctor|] eqn:G; [|discriminate].
  simpl in G.
  destruct (String.eqb (sde_type o) "ve");
    [inversion G; subst ctor; unfold VESDE_init;
     destruct (BaseSDE_init o p q); simpl; congruence|].
  destruct (String.eqb (sde_type o) "ve2");
    [inversion G; subst ctor; unfold VESDE2_init;
     destruct (BaseSDE_init o p q); simpl; congruence|].
  destruct (String.eqb (sde_type o) "simple"); [|discriminate].
  inversion G; subst ctor. unfold SimpleSDE_init.
  destruct (BaseSDE_init o p q); simpl; congruence.
Qed.

(** ** The grid precondition *)

Lemma Rgtb_true a b : Rgtb a b = true <-> b < a.
Proof. unfold Rgtb. destruct (Rgt_dec a b); split; intros; try lra; discriminate. Qed.

Lemma all_increasing_cons2 a b l :
  all_increasing (a :: b :: l) = Rgtb b a && all_increasing (b :: l).
Proof.
  unfold all_increasing. simpl. now rewrite Nat.sub_0_r.
Qed.

Lemma all_increasing_iff ts : all_increasing ts = true <-> strictly_increasing ts.
Proof.
  induction ts as [|a ts IH].
  - split; [intros _ i a b H; discriminate | reflexivity].
  - destruct ts as [|b l].
    + split; [intros _ [|i] u v H1 H2; discriminate | reflexivity].
    + rewrite all_increasing_cons2, andb_true_iff, Rgtb_true, IH. split.
      * intros [Hab Hl] [|i] u v H1 H2; simpl in *.
        -- congruence.
        -- now apply (Hl i).
      * intros H. split.
        -- now apply (H 0%nat).
        -- intros i u v H1 H2. now apply (H (S i)).
Qed.

Lemma all_increasing_false ts : ~ strictly_increasing ts -> all_increasing ts = false.
Proof.
  intros H. destruct (all_increasing ts) eqn:E; [|reflexivity].
  now apply all_increasing_iff in E.
Qed.

Lemma recognized_direction d :
  d = "forward"%string \/ d = "backward"%string ->
  existsb (String.eqb d) ["forward"; "backward"]%string = true.
Proof. intros [-> | ->]; reflexivity. Qed.

(** C4.  On a grid that is not strictly increasing, with a recognized
    direction, [sample_traj] raises the assertion error of
    [_assert_increasing] and leaves the world as it found it: nothing was
    sampled from [p] or [q], no buffer was allocated, the policy was not
    called and no noise was drawn. *)
Theorem sample_traj_rejects_grid {C : Type} (s : sde) (ts : list R) (pol : policy)
    (corrector : option C) (apply_trick save_traj : bool) (w : world) :
  direction pol = "forward"%string \/ direction pol = "backward"%string ->
  ~ strictly_increasing ts ->
  sample_traj s ts pol corrector apply_trick save_traj w =
    (Raise (AssertionError "ts must be strictly increasing"), w).
Proof.
  intros Hd Hts. unfold sample_traj, _assert_increasing, assert.
  rewrite (recognized_direction _ Hd), (all_increasing_false _ Hts).
  reflexivity.
Qed.

(** ** The loop of [sample_traj] *)

Lemma t_idx_lt n d k : (k < n)%nat -> (t_idx n d k < n)%nat.
Proof. unfold t_idx. destruct (String.eqb d "forward"); lia. Qed.

Lemma t_idx_inj n d j k :
  (j < n)%nat -> (k < n)%nat -> t_idx n d j = t_idx n d k -> j = k.
Proof. unfold t_idx. destruct (String.eqb d "forward"); lia. Qed.

Lemma ready_write save bs n b i v : ready save bs n b -> ready save bs n (write save b i v).
Proof.
  unfold ready, write. destruct save; [|trivial].
  intros (c & -> & Hc). eexists. split; [reflexivity|].
  simpl. now rewrite length_insert.
Qed.

Lemma setitem_write bs n b i v :
  ready true bs n b -> (i < n)%nat -> length v = bs ->
  setitem b i v = Ok (write true b i v).
Proof.
  intros (c & -> & Hc) Hi Hv. unfold setitem, write, Tensor.expand_to. simpl.
  destruct (Nat.ltb_spec i (length c)); [|lia].
  now rewrite Hv, Nat.eqb_refl.
Qed.

Lemma length_step_at s d tref x z dw :
  length z = length x -> length dw = length x ->
  length (step_at s d tref x z dw) = length x.
Proof.
  intros Hz Hdw. unfold step_at. apply length_euler_value; try assumption.
  now rewrite length_smul; destruct s; apply length_zeros_like.
Qed.

Lemma length_noise_increment s nz off n : length (noise_increment s nz off n) = n.
Proof. unfold noise_increment. now rewrite length_muls, length_noise_slice. Qed.

Lemma length__f s x t : length (_f s x t) = length x.
Proof. destruct s; apply length_zeros_like. Qed.

(** One iteration, on a well-shaped state. *)
Lemma loop_body_run s ts pol d save idx t xs zs x w :
  shape_preserving pol ->
  ready save (length x) (length ts) xs ->
  ready save (length x) (length ts) zs ->
  (idx < length ts)%nat ->
  loop_body s ts pol d save (idx, t) (xs, zs, x) w =
    (Ok (write save xs (t_idx (length ts) d idx) x,
         write save zs (t_idx (length ts) d idx) (run pol x t),
         step_at s d t x (run pol x t)
           (noise_increment s (noise (gen w)) (cursor (gen w)) (length x))),
     after_randn (length x) (after_policy t w)).
Proof.
  intros Hpol Hxs Hzs Hidx.
  assert (Hti := t_idx_lt (length ts) d idx Hidx).
  unfold loop_body, f, call_policy, dw, randn_like, lift, bind, ret.
  cbn -[propagate]. fold (sign_of d). fold (t_idx (length ts) d idx).
  fold (noise_increment s (noise (gen w)) (cursor (gen w)) (length x)).
  set (dwv := noise_increment s (noise (gen w)) (cursor (gen w)) (length x)).
  set (fv := Tensor.smul (sign_of d) (_f s x t)).
  set (w2 := after_randn (length x) (after_policy t w)).
  assert (P : propagate s t x (run pol x t) d (Some fv) (Some dwv) None w2 =
              (Ok (step_at s d t x (run pol x t) dwv), w2)).
  { rewrite (propagate_unfold s t x _ d (Some fv) (Some dwv) None w2 fv eq_refl).
    f_equal. unfold step_at. apply euler_same_shape.
    - unfold fv. now rewrite length_smul, length__f.
    - apply Hpol.
    - apply length_noise_increment. }
  destruct save.
  - rewrite (setitem_write _ _ xs _ x Hxs Hti eq_refl).
    rewrite (setitem_write _ _ zs _ _ Hzs Hti (Hpol x t)).
    cbn -[propagate write]. fold w2. now rewrite P.
  - cbn -[propagate]. fold w2. now rewrite P.
Qed.

(** The whole loop, on a well-shaped state: it succeeds, records the visited
    pairs and ends in [final]. *)
Lemma for_each_run s ts pol d save :
  shape_preserving pol ->
  forall rest k xs zs x w,
    (k + length rest <= length ts)%nat ->
    ready save (length x) (length ts) xs ->
    ready save (length x) (length ts) zs ->
    fst (for_each (loop_body s ts pol d save)
           (combine (seq k (length rest)) rest) (xs, zs, x) w) =
    Ok (record save (length ts) d k
          (visited s pol d (noise (gen w)) (cursor (gen w)) rest x) (xs, zs),
        final s pol d (noise (gen w)) (cursor (gen w)) rest x).
Proof.
  intros Hpol rest. induction rest as [|t rest IH]; intros k xs zs x w Hk Hxs Hzs.
  - reflexivity.
  - cbn [length seq combine for_each visited final record fst snd] in *.
    rewrite (bind_ok _ _ _ _ _
               (loop_body_run s ts pol d save k t xs zs x w Hpol Hxs Hzs ltac:(lia))).
    set (x' := step_at s d t x (run pol x t)
                 (noise_increment s (noise (gen w)) (cursor (gen w)) (length x))).
    assert (Lx : length x' = length x).
    { apply length_step_at; [apply Hpol | apply length_noise_increment]. }
    rewrite IH.
    + reflexivity.
    + lia.
    + rewrite Lx. now apply ready_write.
    + rewrite Lx. now apply ready_write.
Qed.

(** *** The visited pairs *)

Section Visited.

Variables (s : sde) (pol : policy) (d : string) (nz : nat -> R).
Hypothesis Hpol : shape_preserving pol.

Lemma length_visited grid : forall off x,
  length (visited s pol d nz off grid x) = length grid.
Proof.
  induction grid as [|t rest IH]; intros off x; simpl; [reflexivity|].
  now rewrite IH.
Qed.

Lemma length_final grid : forall off x,
  length (final s pol d nz off grid x) = length x.
Proof.
  induction grid as [|t rest IH]; intros off x; simpl; [reflexivity|].
  rewrite IH. apply length_step_at; [apply Hpol | apply length_noise_increment].
Qed.

Lemma successor_cons pz l xT k : successor (pz :: l) xT (S k) = successor l xT k.
Proof. reflexivity. Qed.

Lemma visited_head t rest off x :
  visited s pol d nz off (t :: rest) x !! 0%nat = Some (x, run pol x t).
Proof. reflexivity. Qed.

Lemma successor_head t rest off x :
  successor (visited s pol d nz off (t :: rest) x)
            (final s pol d nz off (t :: rest) x) 0 =
  step_at s d t x (run pol x t) (noise_increment s nz off (length x)).
Proof.
  unfold successor. simpl. destruct rest as [|t' rest']; reflexivity.
Qed.

(** Every visited pair is a state of the batch's shape with the control the
    policy gives for it at the time of that step, and its successor is one
    step taken at that same time with the noise drawn in that step. *)
Lemma visited_step grid : forall off x k t,
  grid !! k = Some t ->
  exists xk,
    visited s pol d nz off grid x !! k = Some (xk, run pol xk t) /\
    length xk = length x /\
    successor (visited s pol d nz off grid x) (final s pol d nz off grid x) k =
      step_at s d t xk (run pol xk t)
        (noise_increment s nz (off + k * length x) (length x)).
Proof.
  induction grid as [|t0 rest IH]; intros off x k t Hk; [discriminate|].
  destruct k as [|k].
  - inversion Hk; subst t0. exists x. split; [reflexivity|]. split; [reflexivity|].
    rewrite successor_head. now rewrite Nat.add_0_r.
  - simpl in Hk.
    set (x' := step_at s d t0 x (run pol x t0) (noise_increment s nz off (length x))).
    assert (Lx : length x' = length x).
    { apply length_step_at; [apply Hpol | apply length_noise_increment]. }
    destruct (IH (off + length x)%nat x' k t Hk) as (xk & Hv & Hl & Hs).
    exists xk. split; [exact Hv|]. split; [congruence|].
    cbn [visited final]. fold x'. rewrite successor_cons, Hs, Lx.
    replace (off + length x + k * length x)%nat with (off + S k * length x)%nat by lia.
    reflexivity.
Qed.

End Visited.

(** *** The recorded buffers *)

Lemma record_true n d bs : forall l k cx cz,
  length cx = n -> length cz = n -> (k + length l <= n)%nat ->
  exists cx' cz',
    record true n d k l (Some (Buffer bs cx), Some (Buffer bs cz)) =
      (Some (Buffer bs cx'), Some (Buffer bs cz')) /\
    length cx' = n /\ length cz' = n /\
    (forall i, (forall j, (j < length l)%nat -> t_idx n d (k + j) <> i) ->
       cx' !! i = cx !! i /\ cz' !! i = cz !! i) /\
    (forall j xj zj, l !! j = Some (xj, zj) ->
       cx' !! t_idx n d (k + j) = Some (Some xj) /\
       cz' !! t_idx n d (k + j) = Some (Some zj)).
Proof.
  induction l as [|[x z] l IH]; intros k cx cz Hcx Hcz Hk.
  - exists cx, cz. split; [reflexivity|]. split; [assumption|].
    split; [assumption|].
    split; [intros i _; split; reflexivity | intros j xj zj H; discriminate].
  - cbn [length] in Hk. cbn [record write fst snd rows cols].
    assert (Hti : (t_idx n d k < n)%nat) by (apply t_idx_lt; lia).
    destruct (IH (S k) (<[t_idx n d k := Some x]> cx) (<[t_idx n d k := Some z]> cz))
      as (cx' & cz' & E & Lx & Lz & Frame & Look);
      [now rewrite length_insert | now rewrite length_insert | lia |].
    exists cx', cz'. split; [exact E|]. split; [exact Lx|]. split; [exact Lz|]. split.
    + intros i Hi.
      destruct (Frame i) as [Fx Fz].
      { intros j Hj. replace (S k + j)%nat with (k + S j)%nat by lia.
        apply Hi. cbn [length]. lia. }
      assert (Hne : t_idx n d k <> i).
      { rewrite <- (Nat.add_0_r k) at 1. apply Hi. cbn [length]. lia. }
      rewrite Fx, Fz. now rewrite !list_lookup_insert_ne.
    + intros [|j] xj zj Hj.
      * inversion Hj; subst xj zj. rewrite Nat.add_0_r.
        destruct (Frame (t_idx n d k)) as [Fx Fz].
        { intros j' Hj' Heq. apply t_idx_inj in Heq; cbn [length] in Hk; lia. }
        rewrite Fx, Fz. now rewrite !list_lookup_insert_eq by lia.
      * replace (k + S j)%nat with (S k + j)%nat by lia. now apply Look.
Qed.

Lemma ready_fresh save bs n :
  ready save bs n (fst (fresh save bs n)) /\ ready save bs n (snd (fresh save bs n)).
Proof.
  unfold ready, fresh. destruct save; [|split; trivial].
  split; eexists; (split; [reflexivity | apply length_replicate]).
Qed.

(** When recording, the [k]-th visited pair is stored at index [t_idx k] of
    buffers of [n] columns. *)
Lemma record_fresh n d bs l :
  length l = n ->
  exists bx bz,
    record true n d 0 l (fresh true bs n) = (Some bx, Some bz) /\
    rows bx = bs /\ rows bz = bs /\
    length (cols bx) = n /\ length (cols bz) = n /\
    (forall k xk zk, l !! k = Some (xk, zk) ->
       stored (Some bx) (t_idx n d k) = Some xk /\
       stored (Some bz) (t_idx n d k) = Some zk).
Proof.
  intros Hl.
  destruct (record_true n d bs l 0 (replicate n None) (replicate n None))
    as (cx & cz & E & Lx & Lz & _ & Look);
    [apply length_replicate | apply length_replicate | lia |].
  exists (Buffer bs cx), (Buffer bs cz). repeat split; try assumption.
  - destruct (Look k xk zk H) as [H1 _]. simpl in H1. unfold stored. simpl.
    now rewrite H1.
  - destruct (Look k xk zk H) as [_ H2]. simpl in H2. unfold stored. simpl.
    now rewrite H2.
Qed.

Lemma record_false n d k l bufs : record false n d k l bufs = bufs.
Proof.
  revert k bufs. induction l as [|[x z] l IH]; intros k [xs zs]; [reflexivity|].
  simpl. apply IH.
Qed.

(** *** [sample_traj] as a whole *)

Lemma length_traversal d ts : length (traversal d ts) = length ts.
Proof.
  unfold traversal, flip.
  destruct (String.eqb d "forward"); [reflexivity | apply length_reverse].
Qed.

Lemma fst_bind_ok {A B} (m : M A) (k : A -> M B) w a :
  fst (m w) = Ok a -> bind m k w = k a (snd (m w)).
Proof. intros H. unfold bind. destruct (m w) as [r w']. simpl in *. now subst r. Qed.

Lemma sample_traj_run {C : Type} s ts pol (corrector : option C) apply_trick save w :
  direction pol = "forward"%string \/ direction pol = "backward"%string ->
  strictly_increasing ts ->
  shape_preserving pol ->
  let d := direction pol in
  let x0 := initial s d w in
  let r := seeded s d w in
  let grid := traversal d ts in
  fst (sample_traj s ts pol corrector apply_trick save w) =
    Ok (record save (length ts) d 0
          (visited s pol d (noise r) (cursor r) grid x0)
          (fresh save (length x0) (length ts)),
        final s pol d (noise r) (cursor r) grid x0).
Proof.
  intros Hd Hts Hpol d x0 r grid.
  assert (Hl : length grid = length ts) by apply length_traversal.
  unfold sample_traj. fold d. fold (traversal d ts). fold grid.
  erewrite bind_ok;
    [|unfold assert; rewrite (recognized_direction d Hd); reflexivity].
  erewrite bind_ok;
    [|unfold _assert_increasing, assert;
      rewrite (proj2 (all_increasing_iff ts) Hts); reflexivity].
  assert (Htq : (if String.eqb (train_method (opt (base s))) "joint"
                 then grid else tqdm grid) = grid).
  { now destruct (String.eqb (train_method (opt (base s))) "joint"). }
  rewrite Htq. clear Htq.
  set (src := if String.eqb d "forward" then (DataP, p (base s))
              else (PriorQ, q (base s))).
  assert (Hsample : sample (fst src) (snd src) w =
                    (Ok x0, World r (EvSample (fst src) :: trace w))).
  { unfold sample, src, x0, r, initial, seeded, init_dist.
    destruct (String.eqb d "forward"); cbn [fst snd];
      now destruct (draw _ (gen w)). }
  rewrite (bind_ok _ _ _ _ _ Hsample).
  pose proof (ready_fresh save (length x0) (length grid)) as [Rx Rz].
  rewrite <- Hl.
  destruct save.
  - erewrite bind_ok; [|reflexivity].
    erewrite bind_ok; [|reflexivity].
    cbn [rows cols]. rewrite length_replicate.
    erewrite fst_bind_ok;
      [|apply (for_each_run s grid pol d true Hpol grid 0); [lia | exact Rx | exact Rz]].
    cbn [gen noise cursor fresh].
    now destruct (record _ _ _ _ _ _) as [bx bz].
  - erewrite bind_ok; [|reflexivity].
    erewrite bind_ok; [|reflexivity].
    erewrite fst_bind_ok;
      [|apply (for_each_run s grid pol d false Hpol grid 0); [lia | exact Rx | exact Rz]].
    cbn [gen noise cursor fresh].
    now destruct (record _ _ _ _ _ _) as [bx bz].
Qed.

Lemma t_idx_involutive n d i : (i < n)%nat -> t_idx n d (t_idx n d i) = i.
Proof. unfold t_idx. destruct (String.eqb d "forward"); lia. Qed.

(** The time of the [k]-th step of the traversal is the grid time of the
    buffer index written in that step. *)
Lemma traversal_lookup d ts k :
  (k < length ts)%nat -> traversal d ts !! k = ts !! t_idx (length ts) d k.
Proof.
  intros Hk. unfold traversal, t_idx, flip.
  destruct (String.eqb d "forward"); [reflexivity|].
  rewrite reverse_lookup by assumption. f_equal. lia.
Qed.

Lemma increasing_first_le ts i t0 t :
  strictly_increasing ts -> ts !! 0%nat = Some t0 -> ts !! i = Some t -> t0 <= t.
Proof.
  intros Hts H0. revert t. induction i as [|i IH]; intros t Hi.
  - assert (t0 = t) by congruence. lra.
  - destruct (lookup_lt_is_Some_2 ts i) as [t' Ht'].
    { apply lookup_lt_Some in Hi. lia. }
    specialize (IH t' Ht'). specialize (Hts i t' t Ht' Hi). lra.
Qed.

(** With recording on, [sample_traj] returns: the [k]-th visited pair is
    stored at index [t_idx k] and the final state is [final]. *)
Lemma sample_traj_recorded {C : Type} s ts pol (corrector : option C) apply_trick w :
  direction pol = "forward"%string \/ direction pol = "backward"%string ->
  strictly_increasing ts ->
  shape_preserving pol ->
  let d := direction pol in
  let r := seeded s d w in
  let l := visited s pol d (noise r) (cursor r) (traversal d ts) (initial s d w) in
  exists bx bz w',
    sample_traj s ts pol corrector apply_trick true w =
      (Ok (Some bx, Some bz,
           final s pol d (noise r) (cursor r) (traversal d ts) (initial s d w)), w') /\
    rows bx = length (initial s d w) /\ rows bz = length (initial s d w) /\
    length (cols bx) = length ts /\ length (cols bz) = length ts /\
    (forall k xk zk, l !! k = Some (xk, zk) ->
       stored (Some bx) (t_idx (length ts) d k) = Some xk /\
       stored (Some bz) (t_idx (length ts) d k) = Some zk).
Proof.
  intros Hd Hts Hpol d r l.
  pose proof (sample_traj_run s ts pol corrector apply_trick true w Hd Hts Hpol) as Run.
  cbv zeta in Run. fold d r l in Run.
  destruct (record_fresh (length ts) d (length (initial s d w)) l)
    as (bx & bz & E & Rx & Rz & Lx & Lz & Look).
  { unfold l. now rewrite length_visited, length_traversal. }
  rewrite E in Run.
  exists bx, bz, (snd (sample_traj s ts pol corrector apply_trick true w)).
  split; [|split; [exact Rx|split; [exact Rz|split; [exact Lx|split; [exact Lz|exact Look]]]]].
  rewrite <- Run. apply surjective_pairing.
Qed.

(** C3.  With recording on, on a strictly increasing grid and for either
    direction, [sample_traj] returns buffers of [len(ts)] columns in which
    column [i] holds the state visited at grid time [ts[i]] and the control the
    policy gave for that state at that time.  The [k]-th step of the
    traversal is taken at the grid time of the column it writes, which is
    column [k] going forward and column [len(ts)-k-1] going backward, the
    initial batch being the first; column [0] belongs to the smallest
    time. *)
Theorem sample_traj_buffers_by_time {C : Type} (s : sde) (ts : list R) (pol : policy)
    (corrector : option C) (apply_trick : bool) (w : world) :
  direction pol = "forward"%string \/ direction pol = "backward"%string ->
  strictly_increasing ts ->
  shape_preserving pol ->
  let d := direction pol in
  let n := length ts in
  let r := seeded s d w in
  exists bx bz xT w',
    sample_traj s ts pol corrector apply_trick true w =
      (Ok (Some bx, Some bz, xT), w') /\
    length (cols bx) = n /\ length (cols bz) = n /\
    (forall i t, ts !! i = Some t ->
       exists x, stored (Some bx) i = Some x /\
                 stored (Some bz) i = Some (run pol x t)) /\
    (forall k t, traversal d ts !! k = Some t -> ts !! t_idx n d k = Some t) /\
    (forall k xk zk,
       visited s pol d (noise r) (cursor r) (traversal d ts) (initial s d w) !! k
         = Some (xk, zk) ->
       stored (Some bx) (t_idx n d k) = Some xk /\
       stored (Some bz) (t_idx n d k) = Some zk /\
       t_idx n d k = (if String.eqb d "forward" then k else n - k - 1)%nat) /\
    ((0 < n)%nat -> stored (Some bx) (t_idx n d 0) = Some (initial s d w)) /\
    (forall i t0 t, ts !! 0%nat = Some t0 -> ts !! i = Some t -> t0 <= t).
Proof.
  intros Hd Hts Hpol d n r.
  destruct (sample_traj_recorded s ts pol corrector apply_trick w Hd Hts Hpol)
    as (bx & bz & w' & E & _ & _ & Lx & Lz & Look).
  fold d r in E, Look. fold n in Lx, Lz, Look.
  exists bx, bz, (final s pol d (noise r) (cursor r) (traversal d ts) (initial s d w)), w'.
  split; [exact E|]. split; [exact Lx|]. split; [exact Lz|].
  split; [|split; [|split; [|split]]].
  - intros i t Hi.
    assert (Hin : (i < n)%nat) by (apply lookup_lt_Some in Hi; exact Hi).
    assert (Hk : (t_idx n d i < n)%nat) by now apply t_idx_lt.
    assert (Ht : traversal d ts !! t_idx n d i = Some t).
    { rewrite traversal_lookup by exact Hk. fold n.
      now rewrite t_idx_involutive. }
    destruct (visited_step s pol d (noise r) Hpol (traversal d ts) (cursor r)
                (initial s d w) _ t Ht) as (x & Hv & _ & _).
    destruct (Look _ _ _ Hv) as [Sx Sz].
    rewrite t_idx_involutive in Sx, Sz by exact Hin.
    now exists x.
  - intros k t Hk.
    assert (Hkn : (k < n)%nat).
    { apply lookup_lt_Some in Hk. now rewrite length_traversal in Hk. }
    rewrite traversal_lookup in Hk by exact Hkn. exact Hk.
  - intros k xk zk Hv. destruct (Look _ _ _ Hv) as [Sx Sz].
    now repeat split.
  - intros Hn.
    destruct (traversal d ts) as [|t0 rest] eqn:Eg.
    { pose proof (length_traversal d ts) as Hl. rewrite Eg in Hl.
      simpl in Hl. fold n in Hl. lia. }
    now destruct (Look 0%nat _ _ (visited_head s pol d (noise r) t0 rest (cursor r)
                                    (initial s d w))).
  - intros i t0 t. now apply increasing_first_le.
Qed.

(** ** The reference time of a step *)

Lemma sample_traj_steps {C : Type} s ts pol (corrector : option C) apply_trick w :
  direction pol = "forward"%string \/ direction pol = "backward"%string ->
  strictly_increasing ts ->
  shape_preserving pol ->
  steps_use current_time s ts pol corrector apply_trick w.
Proof.
  intros Hd Hts Hpol. unfold steps_use.
  set (d := direction pol). set (n := length ts). set (r := seeded s d w).
  set (x0 := initial s d w). set (grid := traversal d ts).
  destruct (sample_traj_recorded s ts pol corrector apply_trick w Hd Hts Hpol)
    as (bx & bz & w' & E & _ & _ & Lx & Lz & Look).
  fold d r x0 grid in E, Look. fold n in Look.
  exists bx, bz, (final s pol d (noise r) (cursor r) grid x0), w'.
  split; [exact E|].
  intros k Hk.
  assert (Hg : length grid = n) by apply length_traversal.
  destruct (lookup_lt_is_Some_2 grid k) as [t Ht]; [lia|].
  destruct (visited_step s pol d (noise r) Hpol grid (cursor r) x0 k t Ht)
    as (xk & Hv & Lk & Hs).
  destruct (Look _ _ _ Hv) as [Sx Sz].
  exists xk, (run pol xk t). split; [exact Sx|]. split; [exact Sz|].
  unfold current_time. rewrite (nth_lookup_Some _ _ _ _ Ht), <- Hs.
  unfold next_state, successor.
  destruct (Nat.ltb_spec (S k) n) as [Hlt|Hge].
  - destruct (lookup_lt_is_Some_2
                (visited s pol d (noise r) (cursor r) grid x0) (S k)) as [[x' z'] Hv'].
    { rewrite length_visited. lia. }
    rewrite Hv'. now destruct (Look _ _ _ Hv').
  - rewrite lookup_ge_None_2; [reflexivity|]. rewrite length_visited. lia.
Qed.

Lemma sample_traj_final {C : Type} s ts pol (corrector : option C) apply_trick save w :
  direction pol = "forward"%string \/ direction pol = "backward"%string ->
  strictly_increasing ts ->
  shape_preserving pol ->
  let d := direction pol in
  let r := seeded s d w in
  exists xs zs w',
    sample_traj s ts pol corrector apply_trick save w =
      (Ok (xs, zs, final s pol d (noise r) (cursor r) (traversal d ts) (initial s d w)),
       w').
Proof.
  intros Hd Hts Hpol d r.
  pose proof (sample_traj_run s ts pol corrector apply_trick save w Hd Hts Hpol) as Run.
  cbv zeta in Run. fold d r in Run.
  destruct (record _ _ _ _ _ _) as [xs zs].
  exists xs, zs, (snd (sample_traj s ts pol corrector apply_trick save w)).
  rewrite <- Run. apply surjective_pairing.
Qed.

(** C2 (as amended).  On a strictly increasing grid, every step of
    [sample_traj] propagates the state with drift and diffusion evaluated at
    the current time of the traversal, [ts[idx]], at every index, the last
    included: with recording on, each recorded state and control are taken to
    the following state by a step at that time, and with or without
    recording the final state is the one such steps end in. *)
Theorem sample_traj_steps_at_current_time {C : Type} (s : sde) (ts : list R)
    (pol : policy) (corrector : option C) (apply_trick : bool) (w : world) :
  direction pol = "forward"%string \/ direction pol = "backward"%string ->
  strictly_increasing ts ->
  (2 <= length ts)%nat ->
  shape_preserving pol ->
  let d := direction pol in
  let r := seeded s d w in
  steps_use current_time s ts pol corrector apply_trick w /\
  forall save_traj, exists xs zs w',
    sample_traj s ts pol corrector apply_trick save_traj w =
      (Ok (xs, zs, final s pol d (noise r) (cursor r) (traversal d ts) (initial s d w)),
       w').
Proof.
  intros Hd Hts _ Hpol d r. split.
  - now apply sample_traj_steps.
  - intros save_traj. now apply sample_traj_final.
Qed.

(** ** The SDE without drift and diffusion *)

Section ZeroDiffusion.

Variables (b : BaseSDE) (pol : policy) (d : string) (nz : nat -> R).
Hypothesis Hpol : shape_preserving pol.

Lemma step_at_zero t x z dwv :
  length z = length x -> length dwv = length x ->
  step_at (SimpleSDE b 0) d t x z dwv = x.
Proof.
  intros Hz Hdw. apply tensor_ext.
  - now apply length_step_at.
  - intros j _. unfold step_at.
    rewrite nth_euler_value; try assumption.
    + rewrite nth_smul. cbn [_f g _g]. rewrite nth_zeros_like. ring.
    + now rewrite length_smul, length__f.
Qed.

Lemma final_zero grid : forall off x, final (SimpleSDE b 0) pol d nz off grid x = x.
Proof.
  induction grid as [|t rest IH]; intros off x; [reflexivity|].
  cbn [final].
  rewrite step_at_zero by (apply Hpol || apply length_noise_increment).
  apply IH.
Qed.

Lemma visited_zero grid : forall off x k xk zk,
  visited (SimpleSDE b 0) pol d nz off grid x !! k = Some (xk, zk) -> xk = x.
Proof.
  induction grid as [|t rest IH]; intros off x k xk zk Hk; [discriminate|].
  cbn [visited] in Hk. destruct k as [|k].
  - now inversion Hk.
  - rewrite step_at_zero in Hk by (apply Hpol || apply length_noise_increment).
    simpl in Hk. now apply IH in Hk.
Qed.

End ZeroDiffusion.

(** C8.  For a [SimpleSDE] with [var = 0], a forward policy and a strictly
    increasing grid of at least two times, [sample_traj] returns, and its
    final state is the batch it sampled from [p]; with recording on, every
    recorded state is that batch too. *)
Theorem sample_traj_zero_sde_is_constant {C : Type} (b : BaseSDE) (ts : list R)
    (pol : policy) (corrector : option C) (apply_trick save_traj : bool) (w : world) :
  direction pol = "forward"%string ->
  strictly_increasing ts ->
  (2 <= length ts)%nat ->
  shape_preserving pol ->
  let x0 := fst (draw (p b) (gen w)) in
  exists xs zs w',
    sample_traj (SimpleSDE b 0) ts pol corrector apply_trick save_traj w =
      (Ok (xs, zs, x0), w') /\
    (save_traj = true ->
     forall i, (i < length ts)%nat -> stored xs i = Some x0).
Proof.
  intros Hd Hts _ Hpol x0.
  assert (Hx0 : initial (SimpleSDE b 0) (direction pol) w = x0) by now rewrite Hd.
  destruct save_traj.
  - destruct (sample_traj_recorded (SimpleSDE b 0) ts pol corrector apply_trick w
                (or_introl Hd) Hts Hpol) as (bx & bz & w' & E & _ & _ & _ & _ & Look).
    rewrite final_zero, Hx0 in E by exact Hpol.
    exists (Some bx), (Some bz), w'. split; [exact E|].
    intros _ i Hi.
    set (l := visited (SimpleSDE b 0) pol (direction pol) _ _ _ _) in *.
    destruct (lookup_lt_is_Some_2 l i) as [[xi zi] Hv].
    { unfold l. now rewrite length_visited, length_traversal. }
    destruct (Look _ _ _ Hv) as [Sx _].
    apply visited_zero in Hv; [|exact Hpol].
    rewrite Hd in Sx. change (t_idx (length ts) "forward" i) with i in Sx.
    rewrite Sx. f_equal. now rewrite Hv.
  - pose proof (sample_traj_run (SimpleSDE b 0) ts pol corrector apply_trick false w
                  (or_introl Hd) Hts Hpol) as Run.
    cbv zeta in Run. rewrite record_false, final_zero, Hx0 in Run by exact Hpol.
    cbn [fresh] in Run.
    exists None, None, (snd (sample_traj (SimpleSDE b 0) ts pol corrector apply_trick false w)).
    split; [|discriminate].
    rewrite <- Run. apply surjective_pairing.
Qed.

(** * The properties at concrete inputs *)

Lemma ones_policy_shape d : shape_preserving (ones_policy d).
Proof. intros x t. apply length_map. Qed.

Lemma clock_policy_shape d : shape_preserving (clock_policy d).
Proof. intros x t. apply length_map. Qed.

Lemma unit_grid_increasing : strictly_increasing [0; 1].
Proof.
  intros [|[|i]] a b Ha Hb; simpl in *; try discriminate.
  inversion Ha; inversion Hb; subst. lra.
Qed.

Lemma bent_grid_not_increasing : ~ strictly_increasing [0; 1 / 2; 3 / 10].
Proof.
  intros H. specialize (H 1%nat (1 / 2) (3 / 10) eq_refl eq_refl). lra.
Qed.

Lemma ve_scale_positive : 0 < compute_ve_g_scale 1 2.
Proof.
  unfold compute_ve_g_scale. apply sqrt_lt_R0.
  replace (2 / 1) with 2 by field.
  pose proof ln_lt_2. lra.
Qed.

Lemma g_ve_example_0 : g ve_example 0 = compute_ve_g_scale 1 2.
Proof.
  unfold g, ve_example, _g, compute_ve_diffusion.
  rewrite compute_sigmas_at_0 by lra. ring.
Qed.

Lemma g_ve_example_1 : g ve_example 1 = 2 * compute_ve_g_scale 1 2.
Proof.
  unfold g, ve_example, _g, compute_ve_diffusion.
  now rewrite compute_sigmas_at_1 by lra.
Qed.

(** C5, counterexample.  For the direction ['sideways'], which is neither
    recognized literal, [f] returns the negated drift instead of failing. *)
Lemma f_sideways_returns :
  "sideways"%string <> "forward"%string /\
  "sideways"%string <> "backward"%string /\
  f simple_example [1; 2] 0 "sideways" = Ok (Tensor.neg (Tensor.zeros_like [1; 2])) /\
  ~ fails (f simple_example [1; 2] 0 "sideways").
Proof.
  assert (E : f simple_example [1; 2] 0 "sideways"
              = Ok (Tensor.neg (Tensor.zeros_like [1; 2]))).
  { now apply f_not_forward. }
  repeat split; try discriminate; [exact E|].
  intros [e He]. rewrite E in He. discriminate.
Qed.

(** C2, counterexample.  On the grid [[0, 1]], with the variance-exploding
    SDE of bounds [1] and [2] (whose diffusion doubles from time [0] to time
    [1]), a control of ones, no noise and the initial state [0], the state
    recorded after the first step is [g(0)], the step taken at the current
    time [0]; it is not the [g(1)] of a step taken at the next grid time. *)
Lemma sample_traj_not_at_next_time :
  (exists bx bz xT w',
     sample_traj ve_example [0; 1] (ones_policy "forward") (@None unit) true true
       quiet_world = (Ok (Some bx, Some bz, xT), w') /\
     stored (Some bx) 0 = Some [0] /\
     stored (Some bx) 1 = Some [g ve_example 0]) /\
  g ve_example 0 <> g ve_example 1 /\
  ~ steps_use next_time ve_example [0; 1] (ones_policy "forward")
      (@None unit) true quiet_world.
Proof.
  pose proof ve_scale_positive as Hpos.
  destruct (sample_traj_recorded ve_example [0; 1] (ones_policy "forward") (@None unit)
              true quiet_world (or_introl eq_refl) unit_grid_increasing
              (ones_policy_shape _)) as (bx & bz & w' & E & _ & _ & _ & _ & Look).
  destruct (Look 0%nat [0] [1] eq_refl) as [Lx Lz].
  destruct (Look 1%nat _ _ eq_refl) as [Lx1 _].
  change (t_idx (length [0; 1]) (direction (ones_policy "forward")) 0) with 0%nat
    in Lx, Lz.
  change (t_idx (length [0; 1]) (direction (ones_policy "forward")) 1) with 1%nat
    in Lx1.
  split; [|split].
  - eexists bx, bz, _, w'. split; [exact E|]. split; [exact Lx|].
    rewrite Lx1. unfold step_at, euler_value, noise_increment.
    cbn -[g]. do 2 f_equal. rewrite !Rmult_0_l, !Rmult_0_r. field.
  - rewrite g_ve_example_0, g_ve_example_1. lra.
  - intros (bx' & bz' & xT & w'' & E' & H).
    rewrite E in E'. inversion E'; subst bx' bz' xT w''. clear E'.
    destruct (H 0%nat ltac:(simpl; lia)) as (x & z & Sx & Sz & N).
    change (t_idx (length [0; 1]) (direction (ones_policy "forward")) 0) with 0%nat
      in Sx, Sz.
    rewrite Lx in Sx. rewrite Lz in Sz.
    inversion Sx; inversion Sz; subst x z.
    unfold next_state in N. cbn [length Nat.ltb Nat.leb] in N.
    change (t_idx 2 (direction (ones_policy "forward")) 1) with 1%nat in N.
    rewrite Lx1 in N. clear - N Hpos.
    unfold next_time, current_time, step_at, euler_value, noise_increment in N.
    cbn -[g] in N. rewrite g_ve_example_0, g_ve_example_1 in N.
    inversion N as [Heq].
    rewrite !Rmult_0_l, !Rmult_0_r in Heq. lra.
Qed.

(** ** Instances of the theorems

    Each theorem above that has hypotheses is applied once to inputs that
    satisfy them. *)

(** C6 at the bounds [1 < 2]. *)
Lemma compute_sigmas_endpoints_witness :
  compute_sigmas 0 1 2 = 1 /\
  compute_sigmas 1 1 2 = 2 /\
  compute_sigmas_two_ways (1 / 2) 1 2 = 2 /\
  compute_sigmas_two_ways 0 1 2 = 1 /\
  compute_sigmas_two_ways 1 1 2 = 1.
Proof. apply (compute_sigmas_endpoints 1 2); lra. Defined.

(** C5 at the direction ['sideways']. *)
Lemma f_direction_witness :
  "sideways"%string <> "forward"%string /\
  f simple_example [1; 2] 0 "forward" = Ok (_f simple_example [1; 2] 0) /\
  f simple_example [1; 2] 0 "backward" = Ok (Tensor.neg (_f simple_example [1; 2] 0)) /\
  f simple_example [1; 2] 0 "sideways" = Ok (Tensor.neg (_f simple_example [1; 2] 0)) /\
  ~ fails (f simple_example [1; 2] 0 "sideways").
Proof.
  split; [discriminate|].
  apply (f_direction simple_example [1; 2] 0 "sideways"). discriminate.
Defined.

(** C1 with all three optional arguments left out. *)
Lemma propagate_formula_witness :
  f ve_example [0] 0 "forward" = Ok [1 * 0] /\
  propagate ve_example 0 [0] [1] "forward" None None None quiet_world =
    (euler (g ve_example 0) (1 / 1) [0] [1 * 0] [1] [0 * sqrt (1 / 1)],
     after_randn 1 quiet_world).
Proof.
  split; [reflexivity|].
  exact (proj1 (propagate_formula ve_example 0 [0] [1] "forward" None None None
                  quiet_world [1 * 0] eq_refl)).
Defined.

(** C7 at the name ['ve']. *)
Lemma build_dispatch_witness :
  interval (unit_config "ve") <> 0%Z /\
  build (unit_config "ve") (point_mass [0]) (point_mass [0]) quiet_world =
    (Ok ve_example, after_banner quiet_world).
Proof.
  assert (H : interval (unit_config "ve") <> 0%Z) by discriminate.
  split; [exact H|].
  apply (proj1 (build_dispatch (unit_config "ve") (point_mass [0]) (point_mass [0])
                  quiet_world H)).
  reflexivity.
Defined.

(** C9 at the name ['simple']. *)
Lemma build_simple_var_witness :
  build (unit_config "simple") (point_mass [0]) (point_mass [0]) quiet_world =
    (Ok simple_example, after_banner quiet_world) /\
  1 = 1.
Proof.
  split; [reflexivity|].
  apply (build_simple_var (unit_config "simple") (point_mass [0]) (point_mass [0])
           quiet_world (after_banner quiet_world) (unit_base "simple") 1).
  reflexivity.
Defined.

(** C4 at the grid [[0.0, 0.5, 0.3]]. *)
Lemma sample_traj_rejects_grid_witness :
  ~ strictly_increasing [0; 1 / 2; 3 / 10] /\
  sample_traj simple_example [0; 1 / 2; 3 / 10] (ones_policy "forward")
    (@None unit) true true quiet_world =
    (Raise (AssertionError "ts must be strictly increasing"), quiet_world).
Proof.
  split; [exact bent_grid_not_increasing|].
  apply (sample_traj_rejects_grid simple_example [0; 1 / 2; 3 / 10]
           (ones_policy "forward") (@None unit) true true quiet_world).
  - left. reflexivity.
  - exact bent_grid_not_increasing.
Defined.

(** C3 going backward over the grid [[0, 1]]: the initial batch is stored in
    the last column. *)
Lemma sample_traj_buffers_by_time_witness :
  exists bx bz xT w',
    sample_traj ve_example [0; 1] (clock_policy "backward") (@None unit) true true
      quiet_world = (Ok (Some bx, Some bz, xT), w') /\
    stored (Some bx) 1 = Some [0] /\
    exists x, stored (Some bx) 0 = Some x /\
              stored (Some bz) 0 = Some (run (clock_policy "backward") x 0).
Proof.
  destruct (sample_traj_buffers_by_time ve_example [0; 1] (clock_policy "backward")
              (@None unit) true quiet_world (or_intror eq_refl) unit_grid_increasing
              (clock_policy_shape _))
    as (bx & bz & xT & w' & E & _ & _ & ByTime & _ & _ & First & _).
  exists bx, bz, xT, w'. split; [exact E|]. split.
  - apply First. simpl. lia.
  - apply (ByTime 0%nat 0). reflexivity.
Defined.

(** C2 going forward over the grid [[0, 1]]. *)
Lemma sample_traj_steps_at_current_time_witness :
  steps_use current_time ve_example [0; 1] (ones_policy "forward") (@None unit) true
    quiet_world.
Proof.
  apply (sample_traj_steps_at_current_time ve_example [0; 1] (ones_policy "forward")
           (@None unit) true quiet_world).
  - left. reflexivity.
  - exact unit_grid_increasing.
  - simpl. lia.
  - apply ones_policy_shape.
Defined.

(** C8 over the grid [[0, 1]] with recording on. *)
Lemma sample_traj_zero_sde_is_constant_witness :
  exists xs zs w',
    sample_traj still_example [0; 1] (ones_policy "forward") (@None unit) true true
      quiet_world = (Ok (xs, zs, [0]), w') /\
    stored xs 0 = Some [0] /\ stored xs 1 = Some [0].
Proof.
  destruct (sample_traj_zero_sde_is_constant (unit_base "simple") [0; 1]
              (ones_policy "forward") (@None unit) true true quiet_world eq_refl
              unit_grid_increasing ltac:(simpl; lia) (ones_policy_shape _))
    as (xs & zs & w' & E & St).
  exists xs, zs, w'. split; [exact E|]. split.
  - apply (St eq_refl 0%nat). simpl. lia.
  - apply (St eq_refl 1%nat). simpl. lia.
Defined.

(** * Further properties *)

(** ** The schedules between their end points *)

Lemma bounds_base s_min s_max : valid_bounds s_min s_max -> 1 < s_max / s_min.
Proof.
  intros [Hmin Hlt]. apply Rmult_lt_reg_r with s_min; [assumption|].
  unfold Rdiv. rewrite Rmult_assoc, Rinv_l by lra. lra.
Qed.

Lemma compute_sigmas_lt s_min s_max t1 t2 :
  valid_bounds s_min s_max -> t1 < t2 ->
  compute_sigmas t1 s_min s_max < compute_sigmas t2 s_min s_max.
Proof.
  intros Hb Ht. unfold compute_sigmas, pow.
  apply Rmult_lt_compat_l; [apply Hb|].
  apply Rpower_lt; [now apply bounds_base | assumption].
Qed.

Lemma compute_sigmas_le s_min s_max t1 t2 :
  valid_bounds s_min s_max -> t1 <= t2 ->
  compute_sigmas t1 s_min s_max <= compute_sigmas t2 s_min s_max.
Proof.
  intros Hb [Ht | ->]; [left; now apply compute_sigmas_lt | right; reflexivity].
Qed.

(** X1.  For bounds [0 < s_min < s_max], [compute_sigmas] is strictly
    increasing in [t]; on [0 <= t <= 1] it therefore stays between [s_min]
    and [s_max]. *)
Theorem compute_sigmas_increasing (s_min s_max t1 t2 : R) :
  valid_bounds s_min s_max ->
  t1 < t2 ->
  compute_sigmas t1 s_min s_max < compute_sigmas t2 s_min s_max /\
  (0 <= t1 -> s_min <= compute_sigmas t1 s_min s_max) /\
  (t2 <= 1 -> compute_sigmas t2 s_min s_max <= s_max).
Proof.
  intros Hb Ht. destruct Hb as [Hmin Hlt] eqn:E. clear E.
  split; [now apply compute_sigmas_lt|]. split; intros H.
  - rewrite <- (compute_sigmas_at_0 s_min s_max Hmin Hlt) at 1.
    now apply compute_sigmas_le.
  - rewrite <- (compute_sigmas_at_1 s_min s_max Hmin Hlt) at 2.
    now apply compute_sigmas_le.
Qed.

Lemma compute_sigmas_increasing_witness :
  valid_bounds 1 2 /\ 0 < 1 /\
  compute_sigmas 0 1 2 < compute_sigmas 1 1 2.
Proof.
  assert (Hb : valid_bounds 1 2) by (split; lra).
  assert (Ht : 0 < 1) by lra.
  split; [exact Hb|]. split; [exact Ht|].
  exact (proj1 (compute_sigmas_increasing 1 2 0 1 Hb Ht)).
Defined.

Lemma fold_exponent t : 1 - 2 * Rabs (t - 1 / 2) = 1 - 2 * Rabs ((1 - t) - 1 / 2).
Proof.
  replace (1 - t - 1 / 2) with (- (t - 1 / 2)) by lra. now rewrite Rabs_Ropp.
Qed.

Lemma two_ways_as_sigmas t s_min s_max :
  compute_sigmas_two_ways t s_min s_max =
  compute_sigmas (1 - 2 * Rabs (t - 1 / 2)) s_min s_max.
Proof. reflexivity. Qed.

Lemma two_ways_symmetric t s_min s_max :
  compute_sigmas_two_ways t s_min s_max = compute_sigmas_two_ways (1 - t) s_min s_max.
Proof. unfold compute_sigmas_two_ways. now rewrite <- fold_exponent. Qed.

(** X2.  [compute_sigmas_two_ways] is symmetric about [t = 1/2]; for bounds
    [0 < s_min < s_max] and [0 <= t <= 1] it stays between [s_min] and
    [s_max], on the first half it is [compute_sigmas] at [2t], and the
    diffusion of [VESDE2] inherits the symmetry. *)
Theorem compute_sigmas_two_ways_folds (s_min s_max t : R) (b : BaseSDE) :
  valid_bounds s_min s_max ->
  0 <= t <= 1 ->
  compute_sigmas_two_ways t s_min s_max = compute_sigmas_two_ways (1 - t) s_min s_max /\
  s_min <= compute_sigmas_two_ways t s_min s_max <= s_max /\
  (t <= 1 / 2 ->
   compute_sigmas_two_ways t s_min s_max = compute_sigmas (2 * t) s_min s_max) /\
  g (VESDE2 b s_min s_max) t = g (VESDE2 b s_min s_max) (1 - t).
Proof.
  intros Hb [H0 H1]. destruct Hb as [Hmin Hlt] eqn:E. clear E.
  assert (Habs : 0 <= Rabs (t - 1 / 2) <= 1 / 2).
  { split; [apply Rabs_pos|]. apply Rabs_le. lra. }
  split; [apply two_ways_symmetric|]. split; [|split].
  - rewrite two_ways_as_sigmas. split.
    + rewrite <- (compute_sigmas_at_0 s_min s_max Hmin Hlt) at 1.
      apply compute_sigmas_le; [assumption | lra].
    + rewrite <- (compute_sigmas_at_1 s_min s_max Hmin Hlt) at 2.
      apply compute_sigmas_le; [assumption | lra].
  - intros Hhalf. rewrite two_ways_as_sigmas. f_equal.
    rewrite Rabs_left1 by lra. lra.
  - unfold g, _g, compute_ve2_diffusion. now rewrite <- two_ways_symmetric.
Qed.

Lemma compute_sigmas_two_ways_folds_witness :
  valid_bounds 1 2 /\
  compute_sigmas_two_ways (1 / 4) 1 2 = compute_sigmas_two_ways (1 - 1 / 4) 1 2.
Proof.
  assert (Hb : valid_bounds 1 2) by (split; lra).
  split; [exact Hb|].
  apply (compute_sigmas_two_ways_folds 1 2 (1 / 4) (unit_base "ve2") Hb). lra.
Defined.

(** ** The diffusion of the VE variants *)

Lemma log_ratio_positive s_min s_max : valid_bounds s_min s_max -> 0 < ln (s_max / s_min).
Proof.
  intros Hb. rewrite <- ln_1. apply ln_increasing; [lra | now apply bounds_base].
Qed.

Lemma g_scale_positive s_min s_max :
  valid_bounds s_min s_max -> 0 < compute_ve_g_scale s_min s_max.
Proof.
  intros Hb. unfold compute_ve_g_scale. apply sqrt_lt_R0.
  pose proof (log_ratio_positive _ _ Hb). lra.
Qed.

Lemma compute_sigmas_positive t s_min s_max :
  0 < s_min -> 0 < compute_sigmas t s_min s_max.
Proof.
  intros Hmin. unfold compute_sigmas, pow, Rpower.
  apply Rmult_lt_0_compat; [assumption | apply exp_pos].
Qed.

(** X3.  For bounds [0 < s_min < s_max] the diffusion coefficient of [VESDE]
    and of [VESDE2] is strictly positive at every time, and that of [VESDE]
    grows strictly with the time. *)
Theorem ve_diffusion_positive (b : BaseSDE) (s_min s_max t1 t2 : R) :
  valid_bounds s_min s_max ->
  t1 < t2 ->
  0 < g (VESDE b s_min s_max) t1 /\
  0 < g (VESDE2 b s_min s_max) t1 /\
  g (VESDE b s_min s_max) t1 < g (VESDE b s_min s_max) t2.
Proof.
  intros Hb Ht. pose proof (g_scale_positive _ _ Hb) as Hs.
  unfold g, _g, compute_ve_diffusion, compute_ve2_diffusion.
  split; [|split].
  - apply Rmult_lt_0_compat; [apply compute_sigmas_positive, Hb | exact Hs].
  - rewrite two_ways_as_sigmas.
    apply Rmult_lt_0_compat; [apply compute_sigmas_positive, Hb | exact Hs].
  - apply Rmult_lt_compat_r; [exact Hs | now apply compute_sigmas_lt].
Qed.

Lemma ve_diffusion_positive_witness :
  valid_bounds 1 2 /\ 0 < 1 /\
  g ve_example 0 < g ve_example 1.
Proof.
  assert (Hb : valid_bounds 1 2) by (split; lra).
  assert (Ht : 0 < 1) by lra.
  split; [exact Hb|]. split; [exact Ht|].
  exact (proj2 (proj2 (ve_diffusion_positive (unit_base "ve") 1 2 0 1 Hb Ht))).
Defined.

(** The square of the noise scale at time [t]. *)
Lemma sigma_squared_derivative s_min s_max t :
  derivable_pt_lim (fun u => Rsqr (compute_sigmas u s_min s_max)) t
    (2 * ln (s_max / s_min) * Rsqr (compute_sigmas t s_min s_max)).
Proof.
  set (c := ln (s_max / s_min)).
  assert (D1 : derivable_pt_lim (id * fct_cte c)%F t (1 * fct_cte c t + id t * 0)).
  { apply derivable_pt_lim_mult;
      [apply derivable_pt_lim_id | apply derivable_pt_lim_const]. }
  assert (D2 : derivable_pt_lim (comp exp (id * fct_cte c)%F) t
                 (exp ((id * fct_cte c)%F t) * (1 * fct_cte c t + id t * 0))).
  { apply derivable_pt_lim_comp; [exact D1 | apply derivable_pt_lim_exp]. }
  assert (D3 : derivable_pt_lim (mult_real_fct s_min (comp exp (id * fct_cte c)%F)) t
                 (s_min * (exp ((id * fct_cte c)%F t) * (1 * fct_cte c t + id t * 0)))).
  { apply derivable_pt_lim_scal. exact D2. }
  assert (D4 : derivable_pt_lim
                 (comp Rsqr (mult_real_fct s_min (comp exp (id * fct_cte c)%F))) t
                 (2 * mult_real_fct s_min (comp exp (id * fct_cte c)%F) t *
                  (s_min * (exp ((id * fct_cte c)%F t) * (1 * fct_cte c t + id t * 0))))).
  { apply derivable_pt_lim_comp; [exact D3 | apply derivable_pt_lim_Rsqr]. }
  unfold comp, mult_real_fct, mult_fct, id, fct_cte in D4.
  unfold compute_sigmas, pow, Rpower. fold c.
  replace (2 * c * Rsqr (s_min * exp (t * c)))
    with (2 * (s_min * exp (t * c)) * (s_min * (exp (t * c) * (1 * c + t * 0))))
    by (unfold Rsqr; ring).
  exact D4.
Qed.

(** X4.  For bounds [0 < s_min < s_max], the square of [compute_ve_diffusion]
    at [t] is the derivative in time of the square of [compute_sigmas] at
    [t]: the diffusion is the one of the variance-exploding SDE whose noise
    scale is [compute_sigmas]. *)
Theorem ve_diffusion_is_variance_rate (s_min s_max t : R) :
  valid_bounds s_min s_max ->
  derivable_pt_lim (fun u => Rsqr (compute_sigmas u s_min s_max)) t
    (Rsqr (compute_ve_diffusion t s_min s_max)).
Proof.
  intros Hb.
  replace (Rsqr (compute_ve_diffusion t s_min s_max))
    with (2 * ln (s_max / s_min) * Rsqr (compute_sigmas t s_min s_max)).
  - apply sigma_squared_derivative.
  - unfold compute_ve_diffusion, compute_ve_g_scale.
    rewrite Rsqr_mult, Rsqr_sqrt; [ring|].
    pose proof (log_ratio_positive _ _ Hb). lra.
Qed.

Lemma ve_diffusion_is_variance_rate_witness :
  valid_bounds 1 2 /\
  derivable_pt_lim (fun u => Rsqr (compute_sigmas u 1 2)) 0
    (Rsqr (compute_ve_diffusion 0 1 2)).
Proof.
  assert (Hb : valid_bounds 1 2) by (split; lra).
  split; [exact Hb | exact (ve_diffusion_is_variance_rate 1 2 0 Hb)].
Defined.

(** ** The grid check *)

Lemma increasing_throughout_iff ts : strictly_increasing ts <-> increasing_throughout ts.
Proof.
  split.
  - intros H i j. revert i. induction j as [|j IH]; intros i a b Hij Ha Hb; [lia|].
    destruct (lookup_lt_is_Some_2 ts j) as [c Hc].
    { apply lookup_lt_Some in Hb. lia. }
    pose proof (H j c b Hc Hb) as Hcb.
    destruct (Nat.eq_dec i j) as [->|Hne].
    + congruence.
    + assert (a < c) by (apply (IH i); [lia | assumption | assumption]). lra.
  - intros H i a b Ha Hb. apply (H i (S i)); [lia | assumption | assumption].
Qed.

Lemma short_grid_increasing ts : (length ts <= 1)%nat -> strictly_increasing ts.
Proof.
  intros Hl i a b Ha Hb. apply lookup_lt_Some in Hb. lia.
Qed.

(** X5.  [_assert_increasing] passes, leaving the world as it is, exactly on
    the grids in which every time is smaller than every later one, so a
    repeated time is refused; the empty grid and a grid of one time pass; on
    every other grid it raises the assertion error that names the grid. *)
Theorem assert_increasing_outcome (name : string) (ts : list R) (w : world) :
  (increasing_throughout ts <-> _assert_increasing name ts w = (Ok tt, w)) /\
  (~ increasing_throughout ts ->
   _assert_increasing name ts w =
     (Raise (AssertionError (name ++ " must be strictly increasing")), w)) /\
  ((length ts <= 1)%nat -> _assert_increasing name ts w = (Ok tt, w)).
Proof.
  unfold _assert_increasing, assert. split; [|split].
  - rewrite <- increasing_throughout_iff, <- all_increasing_iff.
    destruct (all_increasing ts); split; intros H; try reflexivity; discriminate.
  - intros H. rewrite <- increasing_throughout_iff in H.
    now rewrite (all_increasing_false _ H).
  - intros H. apply short_grid_increasing, all_increasing_iff in H. now rewrite H.
Qed.

(** ** The direction check *)

(** X6.  With a policy whose direction is neither ['forward'] nor
    ['backward'], [sample_traj] raises the assertion error of its first line
    and leaves the world as it found it, whatever the grid is. *)
Theorem sample_traj_rejects_direction {C : Type} (s : sde) (ts : list R) (pol : policy)
    (corrector : option C) (apply_trick save_traj : bool) (w : world) :
  direction pol <> "forward"%string ->
  direction pol <> "backward"%string ->
  sample_traj s ts pol corrector apply_trick save_traj w =
    (Raise (AssertionError ""), w).
Proof.
  intros Hf Hb. unfold sample_traj. cbn [existsb].
  destruct (String.eqb_spec (direction pol) "forward"); [contradiction|].
  destruct (String.eqb_spec (direction pol) "backward"); [contradiction|].
  reflexivity.
Qed.

Lemma sample_traj_rejects_direction_witness :
  sample_traj simple_example [0; 1 / 2; 3 / 10] (ones_policy "sideways") (@None unit)
    true true quiet_world = (Raise (AssertionError ""), quiet_world).
Proof.
  apply (sample_traj_rejects_direction simple_example [0; 1 / 2; 3 / 10]
           (ones_policy "sideways") (@None unit) true true quiet_world);
    discriminate.
Defined.

(** ** The factory, at its edges *)

Lemma registered_get name :
  registered name <-> exists ctor, get registry name = Some ctor.
Proof.
  unfold registered. simpl.
  destruct (String.eqb_spec name "ve") as [->|H1]; [split; eauto|].
  destruct (String.eqb_spec name "ve2") as [->|H2]; [split; eauto|].
  destruct (String.eqb_spec name "simple") as [->|H3]; [split; eauto|].
  split; [intros [?|[?|?]]; contradiction | intros [c Hc]; discriminate].
Qed.

Lemma registered_init o p q :
  registered (sde_type o) ->
  exists ctor, get registry (sde_type o) = Some ctor /\
    forall b, BaseSDE_init o p q = Ok b -> exists s, ctor o p q = Ok s /\ base s = b.
Proof.
  intros [H|[H|H]]; rewrite H; eexists; (split; [reflexivity|]); intros b Hb;
    unfold VESDE_init, VESDE2_init, SimpleSDE_init; rewrite Hb; simpl; eauto.
Qed.

Lemma registered_init_fails o p q :
  registered (sde_type o) -> interval o = 0%Z ->
  exists ctor, get registry (sde_type o) = Some ctor /\
    ctor o p q = Raise ZeroDivisionError.
Proof.
  intros [H|[H|H]] Hi; rewrite H; eexists; (split; [reflexivity|]);
    unfold VESDE_init, VESDE2_init, SimpleSDE_init, BaseSDE_init;
    rewrite Hi; reflexivity.
Qed.

(** X7.  [build] prints its banner and then returns an instance exactly when
    the name is one of the three keys and the step count is not zero: for a
    key with step count zero it raises [ZeroDivisionError], and for any other
    name it raises the [TypeError] of calling [None], also when the step
    count is zero. *)
Theorem build_outcome (o : config) (p q : distribution) (w : world) :
  snd (build o p q w) = after_banner w /\
  ((registered (sde_type o) /\ interval o <> 0%Z) <->
   exists s, fst (build o p q w) = Ok s) /\
  (registered (sde_type o) -> interval o = 0%Z ->
   fst (build o p q w) = Raise ZeroDivisionError) /\
  (~ registered (sde_type o) ->
   fst (build o p q w) = Raise (TypeError "'NoneType' object is not callable")).
Proof.
  assert (Hzero : registered (sde_type o) -> interval o = 0%Z ->
                  build o p q w = (Raise ZeroDivisionError, after_banner w)).
  { intros Hr Hi. destruct (registered_init_fails o p q Hr Hi) as (ctor & G & E).
    unfold build, bind, emit, lift. now rewrite G, E. }
  assert (Hnone : ~ registered (sde_type o) ->
                  build o p q w =
                    (Raise (TypeError "'NoneType' object is not callable"),
                     after_banner w)).
  { intros Hn. unfold build, bind, emit, raise.
    destruct (get registry (sde_type o)) as [ctor|] eqn:G; [|reflexivity].
    exfalso. apply Hn, registered_get. eauto. }
  assert (Hok : registered (sde_type o) -> interval o <> 0%Z ->
                exists s, build o p q w = (Ok s, after_banner w)).
  { intros Hr Hi. destruct (registered_init o p q Hr) as (ctor & G & E).
    destruct (E _ (BaseSDE_init_ok o p q Hi)) as (s & Es & _).
    exists s. unfold build, bind, emit, lift. now rewrite G, Es. }
  assert (Hreg : registered (sde_type o) \/ ~ registered (sde_type o)).
  { unfold registered.
    destruct (String.eqb_spec (sde_type o) "ve"); [now left; left|].
    destruct (String.eqb_spec (sde_type o) "ve2"); [now left; right; left|].
    destruct (String.eqb_spec (sde_type o) "simple"); [now left; right; right|].
    right. intros [?|[?|?]]; contradiction. }
  split; [|split; [|split]].
  - destruct Hreg as [Hr|Hn]; [|now rewrite Hnone].
    destruct (Z.eq_dec (interval o) 0%Z) as [Hi|Hi]; [now rewrite Hzero|].
    destruct (Hok Hr Hi) as (s & ->). reflexivity.
  - split.
    + intros [Hr Hi]. destruct (Hok Hr Hi) as (s & E). exists s. now rewrite E.
    + intros [s Es]. destruct Hreg as [Hr|Hn].
      * split; [exact Hr|]. intros Hi. rewrite (Hzero Hr Hi) in Es. discriminate.
      * rewrite (Hnone Hn) in Es. discriminate.
  - intros Hr Hi. now rewrite Hzero.
  - intros Hn. now rewrite Hnone.
Qed.

(** X8.  An instance that [build] returns holds the configuration and the two
    distributions it was given, a step size [dt] with [dt * interval = T],
    and is of the variant that the name selects, a VE variant carrying the
    bounds [sigma_min] and [sigma_max] of the configuration. *)
Theorem build_fields (o : config) (p0 q0 : distribution) (w w' : world) (s : sde) :
  build o p0 q0 w = (Ok s, w') ->
  opt (base s) = o /\ p (base s) = p0 /\ q (base s) = q0 /\
  dt (base s) * IZR (interval o) = T o /\
  match s with
  | SimpleSDE _ v => sde_type o = "simple"%string /\ v = 1
  | VESDE _ a b => sde_type o = "ve"%string /\ a = sigma_min o /\ b = sigma_max o
  | VESDE2 _ a b => sde_type o = "ve2"%string /\ a = sigma_min o /\ b = sigma_max o
  end.
Proof.
  unfold build, bind, emit, lift, raise. simpl.
  assert (Hdt : interval o <> 0%Z -> T o / IZR (interval o) * IZR (interval o) = T o).
  { intros Hi. field. intros Hz. apply Hi. now apply eq_IZR_R0. }
  unfold VESDE_init, VESDE2_init, SimpleSDE_init, BaseSDE_init.
  destruct (String.eqb_spec (sde_type o) "ve") as [E1|_];
    [|destruct (String.eqb_spec (sde_type o) "ve2") as [E2|_];
      [|destruct (String.eqb_spec (sde_type o) "simple") as [E3|_]; [|discriminate]]];
    (destruct (Z.eqb_spec (interval o) 0) as [Hi|Hi]; [discriminate|]);
    simpl; intros H; inversion H; subst; simpl; auto 10.
Qed.

Lemma build_fields_witness :
  build (unit_config "ve") (point_mass [0]) (point_mass [0]) quiet_world =
    (Ok ve_example, after_banner quiet_world) /\
  dt (base ve_example) * IZR (interval (unit_config "ve")) = T (unit_config "ve").
Proof.
  assert (H : build (unit_config "ve") (point_mass [0]) (point_mass [0]) quiet_world =
              (Ok ve_example, after_banner quiet_world)) by reflexivity.
  split; [exact H|].
  exact (proj1 (proj2 (proj2 (proj2 (build_fields _ _ _ _ _ _ H))))).
Defined.

(** ** The drift of the three variants *)

Lemma smul_zeros c (x : tensor) : Tensor.smul c (Tensor.zeros_like x) = Tensor.zeros_like x.
Proof.
  induction x as [|v x IH]; [reflexivity|].
  change (c * 0 :: Tensor.smul c (Tensor.zeros_like x) = 0 :: Tensor.zeros_like x).
  rewrite IH. f_equal. ring.
Qed.

Lemma f_zero s x t d : f s x t d = Ok (Tensor.zeros_like x).
Proof. unfold f. f_equal. destruct s; apply smul_zeros. Qed.

(** X9.  For each of the three variants and for every direction value, [f]
    is the zero tensor of the shape of [x]; a step taken with the default
    drift therefore moves each entry by the control and noise terms only,
    [x_j + g(t)*z_j*dt + g(t)*dw_j], whatever the direction. *)
Theorem drift_vanishes (s : sde) (t : R) (x z : tensor) (d : string)
    (dwa : tensor) (dta : R) (w : world) :
  length z = length x ->
  length dwa = length x ->
  f s x t d = Ok (Tensor.zeros_like x) /\
  exists r,
    propagate s t x z d None (Some dwa) (Some dta) w = (Ok r, w) /\
    length r = length x /\
    forall j, nth j r 0 = nth j x 0 + g s t * nth j z 0 * dta + g s t * nth j dwa 0.
Proof.
  intros Hz Hdw. split; [apply f_zero|].
  pose proof (length_zeros_like x) as Hf.
  exists (euler_value (g s t) dta x (Tensor.zeros_like x) z dwa). split; [|split].
  - rewrite (propagate_unfold s t x z d None (Some dwa) (Some dta) w
               (Tensor.zeros_like x) (f_zero s x t d)).
    f_equal. now apply euler_same_shape.
  - now apply length_euler_value.
  - intros j. rewrite nth_euler_value by assumption.
    rewrite nth_zeros_like. ring.
Qed.

Lemma drift_vanishes_witness :
  f ve_example [3] 0 "backward" = Ok (Tensor.zeros_like [3]).
Proof.
  exact (proj1 (drift_vanishes ve_example 0 [3] [1] "backward" [0] 1 quiet_world
                  eq_refl eq_refl)).
Defined.

(** ** Two steps in a row *)

(** X10.  With the drift [f] supplied, two steps taken from [x] at the same
    time [t] with the same control, the first over [dt1] with noise [dw1] and
    the second over [dt2] with noise [dw2], end in the state of the single
    step over [dt1 + dt2] with noise [dw1 + dw2]. *)
Theorem propagate_composes (s : sde) (t : R) (x z fa dw1 dw2 : tensor) (d : string)
    (dt1 dt2 : R) (w : world) :
  length z = length x -> length fa = length x ->
  length dw1 = length x -> length dw2 = length x ->
  exists x1 x2,
    propagate s t x z d (Some fa) (Some dw1) (Some dt1) w = (Ok x1, w) /\
    propagate s t x1 z d (Some fa) (Some dw2) (Some dt2) w = (Ok x2, w) /\
    propagate s t x z d (Some fa) (Some (zip_with Rplus dw1 dw2)) (Some (dt1 + dt2)) w
      = (Ok x2, w).
Proof.
  intros Hz Hf H1 H2.
  set (x1 := euler_value (g s t) dt1 x fa z dw1).
  assert (L1 : length x1 = length x) by now apply length_euler_value.
  assert (L12 : length (zip_with Rplus dw1 dw2) = length x).
  { rewrite length_zip_plus; [assumption | congruence]. }
  exists x1, (euler_value (g s t) dt2 x1 fa z dw2).
  rewrite !(propagate_unfold s t _ z d (Some fa) (Some _) (Some _) w fa eq_refl).
  split; [|split]; f_equal.
  - now apply euler_same_shape.
  - apply euler_same_shape; congruence.
  - rewrite euler_same_shape by assumption. f_equal.
    apply tensor_ext.
    + rewrite !length_euler_value; congruence.
    + intros j _. rewrite !nth_euler_value by congruence.
      unfold x1. rewrite nth_euler_value by assumption.
      rewrite nth_zip_plus by congruence. ring.
Qed.

Lemma propagate_composes_witness :
  exists x1 x2,
    propagate simple_example 0 [0] [1] "forward" (Some [0]) (Some [1]) (Some 1)
      quiet_world = (Ok x1, quiet_world) /\
    propagate simple_example 0 x1 [1] "forward" (Some [0]) (Some [2]) (Some 3)
      quiet_world = (Ok x2, quiet_world) /\
    propagate simple_example 0 [0] [1] "forward" (Some [0])
      (Some (zip_with Rplus [1] [2])) (Some (1 + 3)) quiet_world = (Ok x2, quiet_world).
Proof.
  exact (propagate_composes simple_example 0 [0] [1] [0] [1] [2] "forward" 1 3
           quiet_world eq_refl eq_refl eq_refl eq_refl).
Defined.

(** ** What [sample_traj] asks of its collaborators *)

Lemma for_each_full s ts pol d save :
  shape_preserving pol ->
  forall rest k xs zs x w,
    (k + length rest <= length ts)%nat ->
    ready save (length x) (length ts) xs ->
    ready save (length x) (length ts) zs ->
    for_each (loop_body s ts pol d save)
      (combine (seq k (length rest)) rest) (xs, zs, x) w =
    (Ok (record save (length ts) d k
           (visited s pol d (noise (gen w)) (cursor (gen w)) rest x) (xs, zs),
         final s pol d (noise (gen w)) (cursor (gen w)) rest x),
     World (Rng (noise (gen w)) (cursor (gen w) + length rest * length x))
           (rev (step_events (length x) rest) ++ trace w)).
Proof.
  intros Hpol rest. induction rest as [|t rest IH]; intros k xs zs x w Hk Hxs Hzs.
  - cbn [length seq combine for_each visited final record step_events flat_map rev app].
    unfold ret. destruct w as [[nz c] tr]. cbn. do 3 f_equal. lia.
  - cbn [length seq combine for_each visited final record fst snd] in *.
    rewrite (bind_ok _ _ _ _ _
               (loop_body_run s ts pol d save k t xs zs x w Hpol Hxs Hzs ltac:(lia))).
    set (x' := step_at s d t x (run pol x t)
                 (noise_increment s (noise (gen w)) (cursor (gen w)) (length x))).
    assert (Lx : length x' = length x).
    { apply length_step_at; [apply Hpol | apply length_noise_increment]. }
    rewrite IH; [| lia | rewrite Lx; now apply ready_write
                 | rewrite Lx; now apply ready_write].
    cbn [after_randn after_policy gen trace noise cursor]. rewrite Lx.
    f_equal. f_equal.
    + f_equal. lia.
    + cbn [step_events flat_map app]. fold (step_events (length x) rest).
      change (EvPolicy t :: EvRandn (length x) :: step_events (length x) rest)
        with ([EvPolicy t; EvRandn (length x)] ++ step_events (length x) rest).
      rewrite rev_app_distr. cbn [rev app]. now rewrite <- app_assoc.
Qed.

Lemma sample_traj_full {C : Type} s ts pol (corrector : option C) apply_trick save w :
  direction pol = "forward"%string \/ direction pol = "backward"%string ->
  strictly_increasing ts ->
  shape_preserving pol ->
  let d := direction pol in
  let x0 := initial s d w in
  let r := seeded s d w in
  let grid := traversal d ts in
  sample_traj s ts pol corrector apply_trick save w =
    (Ok (record save (length ts) d 0
           (visited s pol d (noise r) (cursor r) grid x0)
           (fresh save (length x0) (length ts)),
         final s pol d (noise r) (cursor r) grid x0),
     World (Rng (noise r) (cursor r + length ts * length x0))
           (rev (traj_events save d (length x0) (length ts) grid) ++ trace w)).
Proof.
  intros Hd Hts Hpol d x0 r grid.
  assert (Hl : length grid = length ts) by apply length_traversal.
  unfold sample_traj. fold d. fold (traversal d ts). fold grid.
  erewrite bind_ok;
    [|unfold assert; rewrite (recognized_direction d Hd); reflexivity].
  erewrite bind_ok;
    [|unfold _assert_increasing, assert;
      rewrite (proj2 (all_increasing_iff ts) Hts); reflexivity].
  assert (Htq : (if String.eqb (train_method (opt (base s))) "joint"
                 then grid else tqdm grid) = grid).
  { now destruct (String.eqb (train_method (opt (base s))) "joint"). }
  rewrite Htq. clear Htq.
  set (src := if String.eqb d "forward" then (DataP, p (base s))
              else (PriorQ, q (base s))).
  assert (Hid : fst src = if String.eqb d "forward" then DataP else PriorQ).
  { unfold src. now destruct (String.eqb d "forward"). }
  assert (Hsample : sample (fst src) (snd src) w =
                    (Ok x0, World r (EvSample (fst src) :: trace w))).
  { unfold sample, src, x0, r, initial, seeded, init_dist.
    destruct (String.eqb d "forward"); cbn [fst snd];
      now destruct (draw _ (gen w)). }
  rewrite (bind_ok _ _ _ _ _ Hsample).
  pose proof (ready_fresh save (length x0) (length grid)) as [Rx Rz].
  rewrite <- Hl. unfold traj_events. rewrite <- Hid.
  destruct save.
  - erewrite bind_ok; [|reflexivity].
    erewrite bind_ok; [|reflexivity].
    cbn [rows cols]. rewrite length_replicate.
    erewrite bind_ok;
      [|apply (for_each_full s grid pol d true Hpol grid 0); [lia | exact Rx | exact Rz]].
    cbn [gen noise cursor trace fresh].
    destruct (record _ _ _ _ _ _) as [bx bz]. unfold ret. f_equal. f_equal.
    change (EvSample src.1 :: [EvEmpty (length x0) (length grid);
              EvEmpty (length x0) (length grid)] ++ step_events (length x0) grid)
      with ([EvSample src.1; EvEmpty (length x0) (length grid);
              EvEmpty (length x0) (length grid)] ++ step_events (length x0) grid).
    rewrite rev_app_distr. cbn [rev app]. now rewrite <- app_assoc.
  - erewrite bind_ok; [|reflexivity].
    erewrite bind_ok; [|reflexivity].
    erewrite bind_ok;
      [|apply (for_each_full s grid pol d false Hpol grid 0); [lia | exact Rx | exact Rz]].
    cbn [gen noise cursor trace fresh].
    destruct (record _ _ _ _ _ _) as [bx bz]. unfold ret. f_equal. f_equal.
    change (EvSample src.1 :: [] ++ step_events (length x0) grid)
      with ([EvSample src.1] ++ step_events (length x0) grid).
    rewrite rev_app_distr. cbn [rev app]. now rewrite <- app_assoc.
Qed.

(** X11.  On a strictly increasing grid, [sample_traj] makes these calls and
    no others, in this order: one [sample()] of [p] going forward or of [q]
    going backward, the two buffer allocations if it records, and then, for
    each time of the grid in the order of the traversal, the policy at that
    time followed by one noise draw of the batch size.  A grid of [n] times
    thus takes [n] steps and reads [n] times the batch size from the random
    source. *)
Theorem sample_traj_effects {C : Type} (s : sde) (ts : list R) (pol : policy)
    (corrector : option C) (apply_trick save_traj : bool) (w : world) :
  direction pol = "forward"%string \/ direction pol = "backward"%string ->
  strictly_increasing ts ->
  shape_preserving pol ->
  let d := direction pol in
  let bs := length (initial s d w) in
  let r := seeded s d w in
  let w' := snd (sample_traj s ts pol corrector apply_trick save_traj w) in
  trace w' =
    rev (traj_events save_traj d bs (length ts) (traversal d ts)) ++ trace w /\
  gen w' = Rng (noise r) (cursor r + length ts * bs).
Proof.
  intros Hd Hts Hpol d bs r w'. subst w'.
  rewrite (sample_traj_full s ts pol corrector apply_trick save_traj w Hd Hts Hpol).
  split; reflexivity.
Qed.

Lemma sample_traj_effects_witness :
  trace (snd (sample_traj ve_example [0; 1] (clock_policy "backward") (@None unit)
                true false quiet_world)) =
    rev [EvSample PriorQ; EvPolicy 1; EvRandn 1; EvPolicy 0; EvRandn 1].
Proof.
  rewrite (proj1 (sample_traj_effects ve_example [0; 1] (clock_policy "backward")
                    (@None unit) true false quiet_world (or_intror eq_refl)
                    unit_grid_increasing (clock_policy_shape _))).
  reflexivity.
Defined.

(** X12.  Recording does not change the simulation: on a strictly increasing
    grid, [sample_traj] with [save_traj] on and with it off end in the same
    final state and leave the random source at the same position; with it
    off, the two buffers returned are [None]. *)
Theorem sample_traj_recording_is_passive {C : Type} (s : sde) (ts : list R)
    (pol : policy) (corrector : option C) (apply_trick : bool) (w : world) :
  direction pol = "forward"%string \/ direction pol = "backward"%string ->
  strictly_increasing ts ->
  shape_preserving pol ->
  exists xT,
    x_term_of (fst (sample_traj s ts pol corrector apply_trick true w)) = Some xT /\
    fst (sample_traj s ts pol corrector apply_trick false w) = Ok (None, None, xT) /\
    gen (snd (sample_traj s ts pol corrector apply_trick true w)) =
    gen (snd (sample_traj s ts pol corrector apply_trick false w)).
Proof.
  intros Hd Hts Hpol.
  rewrite (sample_traj_full s ts pol corrector apply_trick true w Hd Hts Hpol).
  rewrite (sample_traj_full s ts pol corrector apply_trick false w Hd Hts Hpol).
  eexists. rewrite record_false. cbn [fst snd gen fresh x_term_of].
  split; [|split; reflexivity].
  now destruct (record _ _ _ _ _ _).
Qed.

Lemma sample_traj_recording_is_passive_witness :
  exists xT,
    x_term_of (fst (sample_traj ve_example [0; 1] (ones_policy "forward") (@None unit)
                      true true quiet_world)) = Some xT /\
    fst (sample_traj ve_example [0; 1] (ones_policy "forward") (@None unit)
           true false quiet_world) = Ok (None, None, xT).
Proof.
  destruct (sample_traj_recording_is_passive ve_example [0; 1] (ones_policy "forward")
              (@None unit) true quiet_world (or_introl eq_refl) unit_grid_increasing
              (ones_policy_shape _)) as (xT & H1 & H2 & _).
  exists xT. split; assumption.
Defined.

(** ** The shape of the batch *)

(** X13.  The batch keeps its size: on a strictly increasing grid, with
    recording on, the two buffers have as many rows as the initial batch has
    entries, and every recorded state, every recorded control and the final
    state have that many entries. *)
Theorem sample_traj_keeps_shape {C : Type} (s : sde) (ts : list R) (pol : policy)
    (corrector : option C) (apply_trick : bool) (w : world) :
  direction pol = "forward"%string \/ direction pol = "backward"%string ->
  strictly_increasing ts ->
  shape_preserving pol ->
  let bs := length (initial s (direction pol) w) in
  exists bx bz xT w',
    sample_traj s ts pol corrector apply_trick true w =
      (Ok (Some bx, Some bz, xT), w') /\
    rows bx = bs /\ rows bz = bs /\ length xT = bs /\
    (forall i x, stored (Some bx) i = Some x -> length x = bs) /\
    (forall i z, stored (Some bz) i = Some z -> length z = bs).
Proof.
  intros Hd Hts Hpol bs.
  destruct (sample_traj_recorded s ts pol corrector apply_trick w Hd Hts Hpol)
    as (bx & bz & w' & E & Rx & Rz & Lx & Lz & Look).
  set (d := direction pol) in *. set (r := seeded s d w) in *.
  set (x0 := initial s d w) in *. set (grid := traversal d ts) in *.
  exists bx, bz, (final s pol d (noise r) (cursor r) grid x0), w'.
  split; [exact E|]. split; [exact Rx|]. split; [exact Rz|].
  split; [now apply length_final|].
  assert (Hcol : forall i, (i < length ts)%nat ->
            exists xi t, stored (Some bx) i = Some xi /\
                         stored (Some bz) i = Some (run pol xi t) /\
                         length xi = bs).
  { intros i Hi.
    assert (Hk : (t_idx (length ts) d i < length grid)%nat).
    { unfold grid. rewrite length_traversal. now apply t_idx_lt. }
    destruct (lookup_lt_is_Some_2 grid _ Hk) as [t Ht].
    destruct (visited_step s pol d (noise r) Hpol grid (cursor r) x0 _ t Ht)
      as (xk & Hv & Lk & _).
    destruct (Look _ _ _ Hv) as [Sx Sz].
    rewrite t_idx_involutive in Sx, Sz by exact Hi.
    now exists xk, t. }
  assert (Hout : forall (b : buffer) i, length (cols b) = length ts ->
            (length ts <= i)%nat -> stored (Some b) i = None).
  { intros b i Hb Hi. unfold stored. rewrite lookup_ge_None_2; [reflexivity | lia]. }
  split; intros i v Hs.
  - destruct (Nat.lt_ge_cases i (length ts)) as [Hi|Hi].
    + destruct (Hcol i Hi) as (xi & t & Sx & _ & Lxi). congruence.
    + rewrite (Hout bx i Lx Hi) in Hs. discriminate.
  - destruct (Nat.lt_ge_cases i (length ts)) as [Hi|Hi].
    + destruct (Hcol i Hi) as (xi & t & _ & Sz & Lxi).
      assert (v = run pol xi t) by congruence. subst v. now rewrite Hpol.
    + rewrite (Hout bz i Lz Hi) in Hs. discriminate.
Qed.

Lemma sample_traj_keeps_shape_witness :
  exists bx bz xT w',
    sample_traj ve_example [0; 1] (ones_policy "forward") (@None unit) true true
      quiet_world = (Ok (Some bx, Some bz, xT), w') /\
    rows bx = 1%nat /\ length xT = 1%nat.
Proof.
  destruct (sample_traj_keeps_shape ve_example [0; 1] (ones_policy "forward")
              (@None unit) true quiet_world (or_introl eq_refl) unit_grid_increasing
              (ones_policy_shape _)) as (bx & bz & xT & w' & E & Rx & _ & Lt & _).
  exists bx, bz, xT, w'. split; [exact E|]. split; [exact Rx | exact Lt].
Defined.

(** ** Pure diffusion *)

Lemma zero_control_shape pol : zero_control pol -> shape_preserving pol.
Proof. intros H x t. rewrite H. apply length_zeros_like. Qed.

Lemma final_brownian b var pol d nz :
  zero_control pol ->
  forall grid off x j, (j < length x)%nat ->
    nth j (final (SimpleSDE b var) pol d nz off grid x) 0 =
    nth j x 0 + var * (sqrt (dt b) * noise_sum nz off (length x) j (length grid)).
Proof.
  intros Hz grid. induction grid as [|t rest IH]; intros off x j Hj.
  - cbn [final length noise_sum]. ring.
  - cbn [final length noise_sum].
    set (x' := step_at (SimpleSDE b var) d t x (run pol x t)
                 (noise_increment (SimpleSDE b var) nz off (length x))).
    assert (Lx : length x' = length x).
    { apply length_step_at;
        [apply zero_control_shape, Hz | apply length_noise_increment]. }
    rewrite IH by now rewrite Lx. rewrite Lx.
    unfold x', step_at. rewrite nth_euler_value.
    + rewrite Hz, nth_smul. cbn [_f]. rewrite !nth_zeros_like.
      unfold noise_increment. rewrite nth_muls, nth_noise_slice by exact Hj.
      cbn [g _g base dt]. ring.
    + now rewrite length_smul, length__f.
    + rewrite Hz. apply length_zeros_like.
    + apply length_noise_increment.
Qed.

(** X14.  For a [SimpleSDE] with any constant [var] and a policy that gives
    the zero control, on a strictly increasing grid of [n] times, entry [j]
    of the final state is the entry of the initial batch plus
    [var * sqrt(dt)] times the sum of the [n] numbers drawn for that entry,
    one in each step. *)
Theorem simple_sde_brownian {C : Type} (b : BaseSDE) (var : R) (ts : list R)
    (pol : policy) (corrector : option C) (apply_trick save_traj : bool) (w : world) :
  direction pol = "forward"%string \/ direction pol = "backward"%string ->
  strictly_increasing ts ->
  zero_control pol ->
  let d := direction pol in
  let x0 := initial (SimpleSDE b var) d w in
  let r := seeded (SimpleSDE b var) d w in
  exists xs zs xT w',
    sample_traj (SimpleSDE b var) ts pol corrector apply_trick save_traj w =
      (Ok (xs, zs, xT), w') /\
    length xT = length x0 /\
    forall j, (j < length x0)%nat ->
      nth j xT 0 =
      nth j x0 0 +
      var * (sqrt (dt b) * noise_sum (noise r) (cursor r) (length x0) j (length ts)).
Proof.
  intros Hd Hts Hz d x0 r.
  pose proof (zero_control_shape pol Hz) as Hpol.
  destruct (sample_traj_final (SimpleSDE b var) ts pol corrector apply_trick save_traj w
              Hd Hts Hpol) as (xs & zs & w' & E).
  fold d r x0 in E.
  exists xs, zs,
    (final (SimpleSDE b var) pol d (noise r) (cursor r) (traversal d ts) x0), w'.
  split; [exact E|]. split; [now apply length_final|].
  intros j Hj. rewrite (final_brownian b var pol d (noise r) Hz) by exact Hj.
  now rewrite length_traversal.
Qed.

Lemma zero_policy_zero d : zero_control (zero_policy d).
Proof. intros x t. reflexivity. Qed.

Lemma simple_sde_brownian_witness :
  exists xs zs xT w',
    sample_traj simple_example [0; 1] (zero_policy "forward") (@None unit) true false
      quiet_world = (Ok (xs, zs, xT), w') /\
    nth 0 xT 0 = 0 + 1 * (sqrt (1 / 1) * (0 + (0 + 0))).
Proof.
  destruct (simple_sde_brownian (unit_base "simple") 1 [0; 1] (zero_policy "forward")
              (@None unit) true false quiet_world (or_introl eq_refl)
              unit_grid_increasing (zero_policy_zero _))
    as (xs & zs & xT & w' & E & _ & H).
  exists xs, zs, xT, w'. split; [exact E|].
  apply (H 0%nat). simpl. lia.
Defined.

(** ** The grid as an argument *)

Lemma flipped_not_increasing ts :
  strictly_increasing ts -> (2 <= length ts)%nat -> ~ strictly_increasing (flip ts).
Proof.
  intros Hts Hl Hrev. unfold flip in Hrev.
  destruct (lookup_lt_is_Some_2 ts (length ts - 2)) as [a Ha]; [lia|].
  destruct (lookup_lt_is_Some_2 ts (length ts - 1)) as [b Hb]; [lia|].
  assert (Hab : a < b).
  { apply (Hts (length ts - 2)%nat); [exact Ha|].
    now replace (S (length ts - 2)) with (length ts - 1)%nat by lia. }
  assert (Hba : b < a).
  { apply (Hrev 0%nat).
    - rewrite reverse_lookup by lia. exact Hb.
    - rewrite reverse_lookup by lia. exact Ha. }
  lra.
Qed.

(** X15.  The grid has to be given in increasing order also for backward
    sampling: handing [sample_traj] the flipped form of a strictly increasing
    grid of two or more times raises the assertion error of the grid check,
    in either direction, before anything is sampled. *)
Theorem sample_traj_refuses_flipped_grid {C : Type} (s : sde) (ts : list R)
    (pol : policy) (corrector : option C) (apply_trick save_traj : bool) (w : world) :
  direction pol = "forward"%string \/ direction pol = "backward"%string ->
  strictly_increasing ts ->
  (2 <= length ts)%nat ->
  sample_traj s (flip ts) pol corrector apply_trick save_traj w =
    (Raise (AssertionError "ts must be strictly increasing"), w).
Proof.
  intros Hd Hts Hl. unfold sample_traj, _assert_increasing, assert.
  rewrite (recognized_direction _ Hd).
  rewrite (all_increasing_false _ (flipped_not_increasing ts Hts Hl)).
  reflexivity.
Qed.

Lemma sample_traj_refuses_flipped_grid_witness :
  sample_traj ve_example (flip [0; 1]) (ones_policy "backward") (@None unit) true true
    quiet_world = (Raise (AssertionError "ts must be strictly increasing"), quiet_world).
Proof.
  apply (sample_traj_refuses_flipped_grid ve_example [0; 1] (ones_policy "backward")
           (@None unit) true true quiet_world).
  - right. reflexivity.
  - exact unit_grid_increasing.
  - simpl. lia.
Defined.

Lemma visited_final_grid_blind b v pol d nz :
  time_blind pol ->
  forall g1 g2 off x, length g1 = length g2 ->
    visited (SimpleSDE b v) pol d nz off g1 x = visited (SimpleSDE b v) pol d nz off g2 x /\
    final (SimpleSDE b v) pol d nz off g1 x = final (SimpleSDE b v) pol d nz off g2 x.
Proof.
  intros Hblind g1. induction g1 as [|t1 g1 IH]; intros [|t2 g2] off x Hl;
    try discriminate; [split; reflexivity|].
  cbn [visited final]. rewrite (Hblind x t1 t2).
  assert (E : step_at (SimpleSDE b v) d t1 x (run pol x t2)
                (noise_increment (SimpleSDE b v) nz off (length x)) =
              step_at (SimpleSDE b v) d t2 x (run pol x t2)
                (noise_increment (SimpleSDE b v) nz off (length x))) by reflexivity.
  rewrite E. destruct (IH g2 (off + length x)%nat
                         (step_at (SimpleSDE b v) d t2 x (run pol x t2)
                            (noise_increment (SimpleSDE b v) nz off (length x))))
    as [Hv Hf]; [now inversion Hl|].
  now rewrite Hv, Hf.
Qed.

Lemma pair_increasing a b : a < b -> strictly_increasing [a; b].
Proof.
  intros Hab [|[|i]] u v Hu Hv; simpl in *; try discriminate.
  inversion Hu; inversion Hv; subst. exact Hab.
Qed.

(** X16.  The step size is always the instance's [dt], never the spacing of
    the grid: for a [SimpleSDE] and a policy whose control does not depend
    on the time, two strictly increasing grids of the same number of times
    give the same buffers and the same final state. *)
Theorem simple_sde_ignores_spacing {C : Type} (b : BaseSDE) (v : R) (ts1 ts2 : list R)
    (pol : policy) (corrector : option C) (apply_trick save_traj : bool) (w : world) :
  direction pol = "forward"%string \/ direction pol = "backward"%string ->
  strictly_increasing ts1 ->
  strictly_increasing ts2 ->
  length ts1 = length ts2 ->
  shape_preserving pol ->
  time_blind pol ->
  exists st,
    fst (sample_traj (SimpleSDE b v) ts1 pol corrector apply_trick save_traj w) = Ok st /\
    fst (sample_traj (SimpleSDE b v) ts2 pol corrector apply_trick save_traj w) = Ok st.
Proof.
  intros Hd H1 H2 Hl Hpol Hblind.
  rewrite (sample_traj_run (SimpleSDE b v) ts1 pol corrector apply_trick save_traj w
             Hd H1 Hpol).
  rewrite (sample_traj_run (SimpleSDE b v) ts2 pol corrector apply_trick save_traj w
             Hd H2 Hpol).
  eexists. split; [reflexivity|].
  destruct (visited_final_grid_blind b v pol (direction pol)
              (noise (seeded (SimpleSDE b v) (direction pol) w)) Hblind
              (traversal (direction pol) ts1) (traversal (direction pol) ts2)
              (cursor (seeded (SimpleSDE b v) (direction pol) w))
              (initial (SimpleSDE b v) (direction pol) w)) as [Hv Hf].
  { now rewrite !length_traversal. }
  now rewrite Hv, Hf, Hl.
Qed.

Lemma simple_sde_ignores_spacing_witness :
  exists st,
    fst (sample_traj simple_example [0; 1] (ones_policy "forward") (@None unit) true
           true quiet_world) = Ok st /\
    fst (sample_traj simple_example [0; 1 / 100] (ones_policy "forward") (@None unit)
           true true quiet_world) = Ok st.
Proof.
  apply (simple_sde_ignores_spacing (unit_base "simple") 1 [0; 1] [0; 1 / 100]
           (ones_policy "forward") (@None unit) true true quiet_world).
  - left. reflexivity.
  - exact unit_grid_increasing.
  - apply pair_increasing. lra.
  - reflexivity.
  - apply ones_policy_shape.
  - intros x t t'. reflexivity.
Defined.
